(** * Quorum systems: expressions, duals, distributions and strategies

    A shallow embedding of [quorums/quorums.py] and [quorums/strategy.py].

    Python exceptions are modelled by the [result] monad; Python sets of
    hashable values by [gset], a [Node] object being a record that carries
    its object identity; floats are idealised as rationals ([Q]), and every
    concrete evaluation below uses dyadic values, on which binary floating
    point is exact. *)

From Stdlib Require Import ZArith QArith Qminmax.
From stdpp Require Import gmap strings list fin_maps.

Set Warnings "-register-all,-clear-no-such-hyp".
Local Open Scope Z_scope.

(** ** Exceptions *)

Inductive exn :=
  ValueError | TypeError | AssertionError | ZeroDivisionError | KeyError.

Inductive result (A : Type) : Type :=
  | Ok (a : A)
  | Raise (e : exn).
Arguments Ok {A} a.
Arguments Raise {A} e.

#[global] Instance result_ret : MRet result := λ A a, Ok a.
#[global] Instance result_bind : MBind result := λ A B f m,
  match m with Ok a => f a | Raise e => Raise e end.

Definition is_Ok {A} (r : result A) : Prop := ∃ a, r = Ok a.

(** [[m for m in ms]] where every element may raise: the first exception
    wins. *)
Definition sequence {A} (ms : list (result A)) : result (list A) :=
  mapM (λ m, m) ms.

(** ** The pieces of [itertools] and of the builtins that are used *)

(** [itertools.product] of the lists [ls]: the rightmost position advances
    fastest. *)
Fixpoint product {A} (ls : list (list A)) : list (list A) :=
  match ls with
  | [] => [[]]
  | l :: ls' => a ← l; (λ r, a :: r) <$> product ls'
  end.

(** [itertools.combinations(l, k)] for [k >= 0], in position order. *)
Fixpoint combinations {A} (l : list A) (k : nat) {struct l} : list (list A) :=
  match k with
  | O => [[]]
  | S k' =>
      match l with
      | [] => []
      | a :: l' => ((λ c, a :: c) <$> combinations l' k') ++ combinations l' k
      end
  end.

(** The combinations of [l] with [f] applied to every element of every
    combination: [[f e for e in combo]] for [combo] in the combinations. *)
Fixpoint combinations_with {A B} (f : A → B) (l : list A) (k : nat)
    {struct l} : list (list B) :=
  match k with
  | O => [[]]
  | S k' =>
      match l with
      | [] => []
      | a :: l' =>
          ((λ c, f a :: c) <$> combinations_with f l' k')
            ++ combinations_with f l' k
      end
  end.

(** [set.union] unpacked over [xs]: the unbound method needs at least one
    argument. *)
Definition set_union {A} `{Union A} (xs : list A) : result A :=
  match xs with
  | [] => Raise TypeError
  | s :: xs' => Ok (foldl (∪) s xs')
  end.

(** [sum] of integers. *)
Definition py_sum (l : list Z) : Z := foldl Z.add 0 l.

Definition len {A} (l : list A) : Z := Z.of_nat (length l).

(** ** Floats, idealised as rationals *)

Definition Qltb (a b : Q) : bool := negb (Qle_bool b a).

(** [sum] of floats. *)
Definition Qsum (l : list Q) : Q := foldl Qplus 0%Q l.

(** [a / b]: Python raises on a zero divisor. *)
Definition fdiv (a b : Q) : result Q :=
  if Qeq_bool b 0 then Raise ZeroDivisionError else Ok (a / b)%Q.

(** [max] of a sequence of floats: the first of the largest elements, and an
    error on the empty sequence. *)
Definition py_max (l : list Q) : result Q :=
  match l with
  | [] => Raise ValueError
  | a :: l' => Ok (foldl (λ m b, if Qltb m b then b else m) a l')
  end.

#[global] Instance Q_eq_dec : EqDecision Q.
Proof. solve_decision. Defined.

#[global] Instance Q_countable : Countable Q :=
  inj_countable' (λ q, (Qnum q, Qden q)) (λ p, Qmake p.1 p.2)
    (λ q, match q with Qmake _ _ => eq_refl end).

(** ** Dictionaries keyed by floats

    An association list in insertion order; a key is found by float
    equality. *)

Definition fdict := list (Q * Q).

Fixpoint fdict_set (k v : Q) (d : fdict) : fdict :=
  match d with
  | [] => [(k, v)]
  | (k', v') :: d' =>
      if Qeq_bool k' k then (k', v) :: d' else (k', v') :: fdict_set k v d'
  end.

(** [{k: v for (k, v) in l}] *)
Definition fdict_of_list (l : list (Q * Q)) : fdict :=
  foldl (λ d p, fdict_set p.1 p.2 d) [] l.

(** [k in d] *)
Definition fdict_has (k : Q) (d : fdict) : bool :=
  existsb (λ p, Qeq_bool p.1 k) d.

(** No two entries have equal keys, as in every Python [dict]. *)
Fixpoint distinct_keys (d : fdict) : bool :=
  match d with
  | [] => true
  | p :: d' => negb (fdict_has p.1 d') && distinct_keys d'
  end.

(** ** Distributions *)

Inductive Distribution :=
  | DInt (d : Z)
  | DFloat (d : Q)
  | DDict (d : fdict)
  | DList (d : list (Q * Q)).

Definition canonicalize_dict (d : fdict) : result fdict :=
  if bool_decide (len d = 0) then Raise ValueError
  else if existsb (λ weight, Qltb weight 0) d.*2 then Raise ValueError
  else
    let total_weight := Qsum d.*2 in
    if Qeq_bool total_weight 0 then Raise ValueError
    else Ok (fdict_of_list
               ((λ p, (p.1, p.2 / total_weight)%Q)
                  <$> filter (λ p, Qltb 0 p.2 = true) d)).

Definition _canonicalize_distribution (d : Distribution) : result fdict :=
  match d with
  | DInt d =>
      if bool_decide (d < 0) || bool_decide (d > 1) then Raise ValueError
      else Ok [(inject_Z d, 1%Q)]
  | DFloat d =>
      if Qltb d 0 || Qltb 1 d then Raise ValueError
      else Ok [(d, 1%Q)]
  | DDict d => canonicalize_dict d
  | DList d => canonicalize_dict (fdict_of_list d)
  end.



(** Positive weights that sum to one, under distinct keys. *)
Definition probability_distribution (d : fdict) : Prop :=
  d ≠ [] ∧ distinct_keys d = true ∧
  Forall (λ p, (0 < p.2)%Q) d ∧ (Qsum d.*2 == 1)%Q.

Section Quorums.
Context {T : Type} `{Countable T}.

(** ** Node

    [node_id] is the identity of the Python object ([id(self)]): the class
    defines neither [__eq__] nor [__hash__], so equality and hashing of
    [Node] objects are those of [object]. [node_x] is the field [x]. *)

Record Node := mkNode {
  node_id : nat;
  node_x : T;
  read_capacity : Q;
  write_capacity : Q
}.

(** [Node.__init__], called on a fresh object of identity [i]. *)
Definition Node_init (i : nat) (x : T)
    (capacity read_cap write_cap : option Q) : result Node :=
  match capacity, read_cap, write_cap with
  | None, None, None => Ok (mkNode i x 1 1)
  | Some c, None, None => Ok (mkNode i x c c)
  | None, Some r, Some w => Ok (mkNode i x r w)
  | _, _, _ => Raise ValueError
  end.

(** [object.__eq__]: identity. *)
Definition Node_eq (n1 n2 : Node) : bool :=
  bool_decide (node_id n1 = node_id n2).

(** A record carries the identity of its object, so two records are equal
    exactly when they are one object (one identity names one object). *)
#[global] Instance Node_eq_dec : EqDecision Node.
Proof. solve_decision. Defined.

#[global] Instance Node_countable : Countable Node :=
  inj_countable'
    (λ n, (node_id n, node_x n, read_capacity n, write_capacity n))
    (λ p, mkNode p.1.1.1 p.1.1.2 p.1.2 p.2)
    (λ n, match n with mkNode _ _ _ _ => eq_refl end).

(** ** Expressions *)

Inductive Expr :=
  | Leaf (n : Node)
  | Or (es : list Expr)
  | And (es : list Expr)
  | Choose (k : Z) (es : list Expr).

Definition Or_init (es : list Expr) : result Expr :=
  if bool_decide (len es = 0) then Raise ValueError else Ok (Or es).

Definition And_init (es : list Expr) : result Expr :=
  if bool_decide (len es = 0) then Raise ValueError else Ok (And es).

Definition Choose_init (k : Z) (es : list Expr) : result Expr :=
  if bool_decide (k ≤ 0) || bool_decide (k > len es)
  then Raise ValueError else Ok (Choose k es).

Fixpoint nodes (e : Expr) : result (gset Node) :=
  match e with
  | Leaf n => Ok {[ n ]}
  | Or es => ns ← mapM nodes es; set_union ns
  | And es => ns ← mapM nodes es; set_union ns
  | Choose k es => ns ← mapM nodes es; set_union ns
  end.

(** [{ n.x : n ∈ ns }] *)
Definition identities (ns : gset Node) : gset T :=
  set_map node_x ns.

(** The body shared by [And.quorums] and the inner loop of
    [Choose.quorums]: one union per element of the Cartesian product. *)
Definition product_unions (qss : list (list (gset T)))
    : result (list (gset T)) :=
  mapM set_union (product qss).

(** [list(e.quorums())] *)
Fixpoint quorums (e : Expr) : result (list (gset T)) :=
  match e with
  | Leaf n => Ok [ {[ node_x n ]} ]
  | Or es => qss ← mapM quorums es; Ok (concat qss)
  | And es => qss ← mapM quorums es; product_unions qss
  | Choose k es =>
      if bool_decide (k < 0) then Raise ValueError else
      qss ← mapM (λ combo, qss ← sequence combo; product_unions qss)
               (combinations_with quorums es (Z.to_nat k));
      Ok (concat qss)
  end.

Fixpoint is_quorum (e : Expr) (xs : gset T) : bool :=
  match e with
  | Leaf n => bool_decide (node_x n ∈ xs)
  | Or es => existsb (λ e, is_quorum e xs) es
  | And es => forallb (λ e, is_quorum e xs) es
  | Choose k es =>
      bool_decide (py_sum ((λ e, if is_quorum e xs then 1 else 0) <$> es) >= k)
  end.

Fixpoint dual (e : Expr) : result Expr :=
  match e with
  | Leaf n => Ok (Leaf n)
  | Or es => ds ← mapM dual es; And_init ds
  | And es => ds ← mapM dual es; Or_init ds
  | Choose k es => ds ← mapM dual es; Choose_init (len es - k + 1) ds
  end.

Definition choose (k : Z) (es : list Expr) : result Expr :=
  if bool_decide (k = 1) then Or_init es
  else if bool_decide (k = len es) then And_init es
  else Choose_init k es.

Definition majority (es : list Expr) : result Expr :=
  choose (len es `div` 2 + 1) es.

(** [lhs * rhs], that is [Expr.__mul__]: nested [And]s are flattened. *)
Definition _and (lhs rhs : Expr) : result Expr :=
  match lhs, rhs with
  | And l, And r => And_init (l ++ r)
  | And l, _ => And_init (l ++ [rhs])
  | _, And r => And_init ([lhs] ++ r)
  | _, _ => And_init [lhs; rhs]
  end.

(** [lhs + rhs], that is [Expr.__add__]: nested [Or]s are flattened. *)
Definition _or (lhs rhs : Expr) : result Expr :=
  match lhs, rhs with
  | Or l, Or r => Or_init (l ++ r)
  | Or l, _ => Or_init (l ++ [rhs])
  | _, Or r => Or_init ([lhs] ++ r)
  | _, _ => Or_init [lhs; rhs]
  end.

(** The number of the expressions [es] of which [xs] is a quorum. *)
Definition quorum_count (es : list Expr) (xs : gset T) : nat :=
  sum_list_with (λ e, if is_quorum e xs then 1%nat else 0%nat) es.

(** The operands that [_and] and [_or] concatenate. *)
Definition flat_and (e : Expr) : list Expr :=
  match e with And es => es | _ => [e] end.

Definition flat_or (e : Expr) : list Expr :=
  match e with Or es => es | _ => [e] end.

(** The expressions that the constructors can return. *)
Fixpoint wf (e : Expr) : bool :=
  match e with
  | Leaf _ => true
  | Or es => negb (bool_decide (len es = 0)) && forallb wf es
  | And es => negb (bool_decide (len es = 0)) && forallb wf es
  | Choose k es =>
      negb (bool_decide (k ≤ 0) || bool_decide (k > len es)) && forallb wf es
  end.

(** [xs] is a superset of some set of the enumeration [qs]. *)
Definition covers (qs : list (gset T)) (xs : gset T) : Prop :=
  ∃ q, q ∈ qs ∧ q ⊆ xs.

(** What [And.quorums] and [Choose.quorums] enumerate, given the
    enumerations [qss] of the children. *)
Definition and_qs (qss : list (list (gset T))) : list (gset T) :=
  union_list <$> product qss.

Definition choose_qs (k : nat) (qss : list (list (gset T))) : list (gset T) :=
  concat (and_qs <$> combinations qss k).

(** The [Node] objects at the leaves, left to right. *)
Fixpoint leaves (e : Expr) : list Node :=
  match e with
  | Leaf n => [n]
  | Or es => concat (leaves <$> es)
  | And es => concat (leaves <$> es)
  | Choose _ es => concat (leaves <$> es)
  end.

(** The shape of the dual [d] of [e]: a leaf is its own dual, [Or] and
    [And] are exchanged over the duals of the children, and [Choose(k, es)]
    becomes [Choose(n - k + 1, ds)] with [n = len(es)] and [ds] the duals of
    the children. *)
Definition dual_shape (e d : Expr) : Prop :=
  match e, d with
  | Leaf n, Leaf n' => n' = n
  | Or es, And ds => mapM dual es = Ok ds
  | And es, Or ds => mapM dual es = Ok ds
  | Choose k es, Choose k' ds => k' = len es - k + 1 ∧ mapM dual es = Ok ds
  | _, _ => False
  end.

(** Every set of the enumeration [qs] is non-empty and made of identities
    of the nodes [ns]. *)
Definition nonempty_within (ns : gset Node) (qs : list (gset T)) : Prop :=
  ∀ q, q ∈ qs → q ≠ ∅ ∧ q ⊆ identities ns.

(** ** QuorumSystem *)

Record QuorumSystem := mkQuorumSystem {
  reads : Expr;
  writes : Expr
}.

Definition QuorumSystem_init (reads writes : option Expr)
    : result QuorumSystem :=
  match reads, writes with
  | Some r, Some w =>
      rqs ← quorums r;
      wqs ← quorums w;
      if forallb (λ p : gset T * gset T,
                    bool_decide (Z.of_nat (size (p.1 ∩ p.2)) > 0))
           (rq ← rqs; wq ← wqs; [(rq, wq)])
      then Ok (mkQuorumSystem r w)
      else Raise AssertionError
  | Some r, None => w ← dual r; Ok (mkQuorumSystem r w)
  | None, Some w => r ← dual w; Ok (mkQuorumSystem r w)
  | None, None => Raise ValueError
  end.

Definition read_quorums (qs : QuorumSystem) : result (list (gset T)) :=
  quorums (reads qs).

Definition write_quorums (qs : QuorumSystem) : result (list (gset T)) :=
  quorums (writes qs).

Definition is_read_quorum (qs : QuorumSystem) (xs : gset T) : bool :=
  is_quorum (reads qs) xs.

Definition is_write_quorum (qs : QuorumSystem) (xs : gset T) : bool :=
  is_quorum (writes qs) xs.

(** ** Strategies *)

(** [{node.x: c(node) for node in nodes}] *)
Definition capacity_table (c : Node → Q) (nodes : gset Node) : gmap T Q :=
  foldl (λ m n, <[node_x n := c n]> m) ∅ (elements nodes).

(** The loop filling a [defaultdict(float)]:
    [for (quorum, weight) in zip(quorums, weights): for x in quorum:
     table[x] += weight]. *)
Definition unweighted_load (qs : list (gset T)) (weights : list Q) : gmap T Q :=
  foldl (λ m p, foldl (λ m x, <[x := (default 0 (m !! x) + p.2)%Q]> m) m
                  (elements p.1))
    ∅ (zip qs weights).

(** The weights of the quorums that hold [x], in the order of the list. *)
Definition covering_weights (x : T) (qs : list (gset T)) (weights : list Q)
    : list Q :=
  (filter (λ p, x ∈ p.1) (zip qs weights)).*2.

(** [table[x]] on a [dict]. *)
Definition dict_get (m : gmap T Q) (x : T) : result Q :=
  match m !! x with Some v => Ok v | None => Raise KeyError end.

(** [table[x]] on a [defaultdict(float)]. The lookup also stores the default
    under a missing key, which no later lookup can tell apart. *)
Definition defaultdict_get (m : gmap T Q) (x : T) : Q := default 0%Q (m !! x).

(** The mean read fraction [sum(f * weight for (f, weight) in d.items())]. *)
Definition mean_read_fraction (d : fdict) : Q :=
  Qsum ((λ p, p.1 * p.2)%Q <$> d).

(** *** [ExplicitStrategy] of [quorums.py] *)

Record ExplicitStrategy := mkExplicitStrategy {
  es_nodes : gset Node;
  es_read_capacity : gmap T Q;
  es_write_capacity : gmap T Q;
  es_reads : list (gset T);
  es_read_weights : list Q;
  es_writes : list (gset T);
  es_write_weights : list Q
}.

Definition ExplicitStrategy_init (nodes : gset Node)
    (reads : list (gset T)) (read_weights : list Q)
    (writes : list (gset T)) (write_weights : list Q) : ExplicitStrategy :=
  mkExplicitStrategy nodes
    (capacity_table read_capacity nodes) (capacity_table write_capacity nodes)
    reads read_weights writes write_weights.

(** The body of the loop over the nodes in [ExplicitStrategy.load]. *)
Definition ExplicitStrategy_node_load (s : ExplicitStrategy)
    (read_load write_load : gmap T Q) (fr : Q) (x : T) : result Q :=
  load1 ←
    (if bool_decide (is_Some (read_load !! x)) then
       c ← dict_get (es_read_capacity s) x;
       t ← fdiv (fr * defaultdict_get read_load x) c;
       Ok (0 + t)%Q
     else Ok 0%Q);
  if bool_decide (is_Some (write_load !! x)) then
    c ← dict_get (es_write_capacity s) x;
    t ← fdiv ((1 - fr) * defaultdict_get write_load x) c;
    Ok (load1 + t)%Q
  else Ok load1.

Definition ExplicitStrategy_load (s : ExplicitStrategy)
    (read_fraction : Distribution) : result Q :=
  d ← _canonicalize_distribution read_fraction;
  let fr := mean_read_fraction d in
  let read_load := unweighted_load (es_reads s) (es_read_weights s) in
  let write_load := unweighted_load (es_writes s) (es_write_weights s) in
  loads ← mapM (λ node, ExplicitStrategy_node_load s read_load write_load fr
                          (node_x node))
             (elements (es_nodes s));
  py_max loads.

(** *** [Strategy] of [strategy.py] *)

Record Strategy := mkStrategy {
  st_nodes : gset Node;
  st_read_capacity : gmap T Q;
  st_write_capacity : gmap T Q;
  st_reads : list (gset T);
  st_read_weights : list Q;
  st_writes : list (gset T);
  st_write_weights : list Q;
  st_unweighted_read_load : gmap T Q;
  st_unweighted_write_load : gmap T Q
}.

Definition Strategy_init (nodes : gset Node)
    (reads : list (gset T)) (read_weights : list Q)
    (writes : list (gset T)) (write_weights : list Q) : Strategy :=
  mkStrategy nodes
    (capacity_table read_capacity nodes) (capacity_table write_capacity nodes)
    reads read_weights writes write_weights
    (unweighted_load reads read_weights)
    (unweighted_load writes write_weights).

Definition _node_load (s : Strategy) (x : T) (fr : Q) : result Q :=
  let fw := (1 - fr)%Q in
  rc ← dict_get (st_read_capacity s) x;
  r ← fdiv (fr * defaultdict_get (st_unweighted_read_load s) x) rc;
  wc ← dict_get (st_write_capacity s) x;
  w ← fdiv (fw * defaultdict_get (st_unweighted_write_load s) x) wc;
  Ok (r + w)%Q.

Definition _load (s : Strategy) (fr : Q) : result Q :=
  ls ← mapM (λ node, _node_load s (node_x node) fr) (elements (st_nodes s));
  py_max ls.

(** [Strategy.load], on the dictionary [d] that [canonicalize_rw] (of the
    module [distribution]) returns. *)
Definition Strategy_load (s : Strategy) (d : fdict) : result Q :=
  ts ← mapM (λ p, l ← _load s p.1; Ok (p.2 * l)%Q) d;
  Ok (Qsum ts).

(** [Strategy.node_load], on the canonical dictionary [d]. *)
Definition Strategy_node_load (s : Strategy) (node : Node) (d : fdict)
    : result Q :=
  ts ← mapM (λ p, l ← _node_load s (node_x node) p.1; Ok (p.2 * l)%Q) d;
  Ok (Qsum ts).



(** Every node has non-zero capacities. *)
Definition capacities_nonzero (nodes : gset Node) : Prop :=
  ∀ n, n ∈ nodes →
    ¬ (read_capacity n == 0)%Q ∧ ¬ (write_capacity n == 0)%Q.

(** No two nodes carry the same identity. *)
Definition unique_identities (nodes : gset Node) : Prop :=
  ∀ n n', n ∈ nodes → n' ∈ nodes → node_x n = node_x n' → n = n'.

(** *** The load as the specification words it

    [node_load x f] is the pointwise load of [x], a side being absent when
    [x] is in no quorum of that side, and [expected_worst_case_load d] is the
    sum over the read fractions [f] of [d f] times the largest pointwise
    load; [worst_case_load_at_mean d] is the largest pointwise load at the
    mean read fraction. *)

Definition Qmax_list (a : Q) (l : list Q) : Q := foldl Qmax a l.

Definition node_load (s : Strategy) (x : T) (f : Q) : Q :=
  ((match st_unweighted_read_load s !! x, st_read_capacity s !! x with
    | Some l, Some c => f * l / c
    | _, _ => 0
    end) +
   (match st_unweighted_write_load s !! x, st_write_capacity s !! x with
    | Some l, Some c => (1 - f) * l / c
    | _, _ => 0
    end))%Q.

Definition max_node_load (s : Strategy) (f : Q) : Q :=
  match (λ n, node_load s (node_x n) f) <$> elements (st_nodes s) with
  | [] => 0%Q
  | a :: l => Qmax_list a l
  end.

Definition expected_worst_case_load (s : Strategy) (d : fdict) : Q :=
  Qsum ((λ p, p.2 * max_node_load s p.1)%Q <$> d).

Definition worst_case_load_at_mean (s : Strategy) (d : fdict) : Q :=
  max_node_load s (mean_read_fraction d).

End Quorums.

(** ** Concrete systems

    Nodes named by strings, as [Node('a')] builds them, and what the
    examples below are stated on. *)

Definition node_a : Node (T:=string) := mkNode 0 "a" 1 1.
Definition node_b : Node (T:=string) := mkNode 1 "b" 1 1.
Definition node_c : Node (T:=string) := mkNode 2 "c" 1 1.

(** A second object built by [Node('a')]. *)
Definition node_a' : Node (T:=string) := mkNode 3 "a" 1 1.

(** [Choose(2, [a, b, c])], which is [majority([a, b, c])]. *)
Definition majority_abc : Expr (T:=string) :=
  Choose 2 [Leaf node_a; Leaf node_b; Leaf node_c].

(** Reads are served by [a] alone and writes by [b] alone. *)
Definition split_explicit_strategy : ExplicitStrategy (T:=string) :=
  ExplicitStrategy_init {[ node_a; node_b ]}
    [ {[ "a" ]} ] [1%Q] [ {[ "b" ]} ] [1%Q].

Definition split_strategy : Strategy (T:=string) :=
  Strategy_init {[ node_a; node_b ]} [ {[ "a" ]} ] [1%Q] [ {[ "b" ]} ] [1%Q].

(** Half of the time only writes, half of the time only reads:
    [{0.0: 0.5, 1.0: 0.5}]. *)
Definition all_or_nothing : fdict := [(0, 1 # 2); (1, 1 # 2)]%Q.

(** A node without capacity, [Node('z', capacity=0)]. *)
Definition node_z : Node (T:=string) := mkNode 4 "z" 0 0.


Definition mixed_workload_canonical : fdict :=
  [(1 # 10, 2 # 5); (1 # 2, 2 # 5); (9 # 10, 1 # 5)]%Q.

(** The three quorums of the majority of [a], [b] and [c], and the strategy
    that picks each of them a third of the time. *)
Definition majority_quorums : list (gset string) :=
  [ {[ "a"; "b" ]}; {[ "a"; "c" ]}; {[ "b"; "c" ]} ].




(** * Properties *)

(** ** The exception monad *)

Section Result.
Context {A B : Type}.
Implicit Types (f : A → result B) (l : list A) (k : list B).

Lemma bind_Ok `(m : result A) {C} (g : A → result C) a :
  m = Ok a → m ≫= g = g a.
Proof. by intros ->. Qed.

Lemma mapM_cons f x l :
  mapM f (x :: l) = y ← f x; k ← mapM f l; Ok (y :: k).
Proof. reflexivity. Qed.

Lemma mapM_Ok_Forall2 f l k :
  mapM f l = Ok k ↔ Forall2 (λ x y, f x = Ok y) l k.
Proof.
  revert k. induction l as [|x l IH]; intros k; simpl.
  - split; [intros [= <-]; constructor | by inversion 1].
  - split.
    + destruct (f x) as [y|] eqn:Hx; simpl; [|done].
      destruct (mapM f l) as [k'|] eqn:Hl; simpl; [|done].
      intros [= <-]. constructor; [done|]. by apply IH.
    + inversion 1 as [|? y ? k' Hx Hl]; subst.
      apply IH in Hl. by rewrite Hx, Hl.
Qed.

Lemma mapM_Ok_fmap f (g : A → B) l :
  Forall (λ x, f x = Ok (g x)) l → mapM f l = Ok (g <$> l).
Proof.
  intros Hl. apply mapM_Ok_Forall2, Forall2_fmap_r.
  induction Hl; constructor; auto.
Qed.

Lemma mapM_is_Ok f l : Forall (λ x, is_Ok (f x)) l → is_Ok (mapM f l).
Proof.
  induction 1 as [|x l [y Hy] _ [k Hk]]; [by exists []|].
  exists (y :: k). simpl. by rewrite Hy, Hk.
Qed.

Lemma mapM_ext f (g : A → result B) l :
  (∀ x, f x = g x) → mapM f l = mapM g l.
Proof.
  intros Hfg. induction l as [|x l IH]; [done|].
  by rewrite !mapM_cons, Hfg, IH.
Qed.

Lemma mapM_fmap {C} (h : C → A) f (l : list C) :
  mapM f (h <$> l) = mapM (f ∘ h) l.
Proof.
  induction l as [|c l IH]; [done|].
  rewrite fmap_cons, !mapM_cons, IH. done.
Qed.

End Result.

Lemma sequence_fmap {A B} (f : A → result B) (l : list A) :
  sequence (f <$> l) = mapM f l.
Proof.
  unfold sequence in *. induction l as [|a l IH]; [done|].
  rewrite fmap_cons, !mapM_cons, IH. done.
Qed.

(** ** Products and combinations *)

Section Itertools.
Context {A : Type}.

Lemma elem_of_product (c : list A) (ls : list (list A)) :
  c ∈ product ls ↔ Forall2 (∈) c ls.
Proof.
  revert c. induction ls as [|l ls IH]; intros c; simpl.
  - rewrite list_elem_of_singleton. split; [intros ->; constructor|by inversion 1].
  - rewrite list_elem_of_bind. split.
    + intros (a & (r & -> & Hr)%list_elem_of_fmap & Ha).
      constructor; [done|]. by apply IH.
    + inversion 1 as [|a ? r ? Ha Hr]; subst. exists a. split; [|done].
      apply list_elem_of_fmap. exists r. split; [done|]. by apply IH.
Qed.

Lemma product_length (c : list A) ls : c ∈ product ls → length c = length ls.
Proof. rewrite elem_of_product. apply Forall2_length. Qed.

Lemma combinations_length (l : list A) k :
  Forall (λ c, length c = k) (combinations l k).
Proof.
  revert k. induction l as [|a l IH]; intros [|k]; simpl;
    try by repeat constructor.
  apply Forall_app. split; [|apply IH].
  apply Forall_fmap. eapply Forall_impl; [apply (IH k)|].
  simpl. by intros c ->.
Qed.

Lemma combinations_gt (l : list A) k :
  (length l < k)%nat → combinations l k = [].
Proof.
  revert k. induction l as [|a l IH]; intros [|k] Hk; simpl in *; try lia; try done.
  rewrite !IH by lia. done.
Qed.

Lemma combinations_all (l : list A) : combinations l (length l) = [l].
Proof.
  induction l as [|a l IH]; simpl; [done|].
  rewrite IH, combinations_gt by lia. done.
Qed.

Lemma combinations_1 (l : list A) : combinations l 1 = (λ a, [a]) <$> l.
Proof.
  induction l as [|a l IH]; simpl; [done|]. rewrite IH.
  by destruct l.
Qed.

Lemma combinations_with_fmap {B} (f : A → B) (l : list A) k :
  combinations_with f l k = (λ c : list A, f <$> c) <$> combinations l k.
Proof.
  revert k. induction l as [|a l IH]; intros [|k]; simpl; try done.
  rewrite fmap_app, !IH, <-!list_fmap_compose. done.
Qed.

Lemma Forall2_combinations {B} (R : A → B → Prop) l l' k :
  Forall2 R l l' →
  Forall2 (Forall2 R) (combinations l k) (combinations l' k).
Proof.
  intros Hl. revert k.
  induction Hl as [|a b l l' Hab Hl IH]; intros [|k]; simpl;
    try by repeat constructor.
  apply Forall2_app; [|apply IH].
  apply Forall2_fmap. eapply Forall2_impl; [apply (IH k)|].
  simpl. by constructor.
Qed.

(** At least [k] elements of [l] satisfy [p] exactly when some combination
    of [k] of the related elements satisfies [Q] throughout. *)
Lemma combinations_count {B} (p : A → bool) (Q : B → Prop) l l' k :
  Forall2 (λ a b, p a = true ↔ Q b) l l' →
  (∃ c, c ∈ combinations l' k ∧ Forall Q c) ↔
  (k ≤ sum_list_with (λ a, if p a then 1 else 0) l)%nat.
Proof.
  intros Hl. revert k.
  induction Hl as [|a b l l' Hab Hl IH]; intros [|k]; simpl.
  - split; [lia|]. exists []. split; [by left | constructor].
  - split; [|lia]. by intros (c & ?%elem_of_nil & _).
  - split; [lia|]. exists []. split; [by apply list_elem_of_singleton | constructor].
  - split.
    + intros (c & [Hc|Hc]%elem_of_app & HQ).
      * apply list_elem_of_fmap in Hc as (c' & -> & Hc').
        inversion HQ as [|? ? Hb HQ']; subst. apply Hab in Hb. rewrite Hb.
        assert (k ≤ sum_list_with (λ a, if p a then 1 else 0) l)%nat; [|lia].
        apply IH. eauto.
      * assert (S k ≤ sum_list_with (λ a, if p a then 1 else 0) l)%nat; [|lia].
        apply IH. eauto.
    + intros Hk. destruct (p a) eqn:Hpa.
      * destruct (proj2 (IH k)) as (c & Hc & HQ); [lia|].
        exists (b :: c). split.
        -- apply elem_of_app. left. by apply list_elem_of_fmap_2.
        -- constructor; [by apply Hab|done].
      * destruct (proj2 (IH (S k))) as (c & Hc & HQ); [lia|].
        exists c. split; [|done]. apply elem_of_app. by right.
Qed.

End Itertools.

Lemma py_sum_indicator {A} (p : A → bool) (l : list A) :
  py_sum ((λ a, if p a then 1 else 0) <$> l)
  = Z.of_nat (sum_list_with (λ a, if p a then 1 else 0)%nat l).
Proof.
  unfold py_sum.
  assert (∀ z, foldl Z.add z ((λ a, if p a then 1 else 0) <$> l)
    = z + Z.of_nat (sum_list_with (λ a, if p a then 1 else 0)%nat l)) as Hz.
  { induction l as [|a l IH]; intros z; simpl; [lia|].
    rewrite IH. destruct (p a); lia. }
  apply Hz.
Qed.

Section BoolLists.
Context {A B : Type} (p : A → bool).

Lemma existsb_Forall2 (Q : B → Prop) l l' :
  Forall2 (λ a b, p a = true ↔ Q b) l l' →
  existsb p l = true ↔ Exists Q l'.
Proof.
  induction 1 as [|a b l l' Hab _ IH]; simpl.
  - split; [done | by inversion 1].
  - rewrite orb_true_iff, Exists_cons, Hab, IH. done.
Qed.

Lemma forallb_Forall2 (Q : B → Prop) l l' :
  Forall2 (λ a b, p a = true ↔ Q b) l l' →
  forallb p l = true ↔ Forall Q l'.
Proof.
  induction 1 as [|a b l l' Hab _ IH]; simpl.
  - split; [constructor | done].
  - rewrite andb_true_iff, Forall_cons, Hab, IH. done.
Qed.

Lemma forallb_Forall l : forallb p l = true ↔ Forall (λ a, p a = true) l.
Proof.
  induction l as [|a l IH]; simpl.
  - split; [constructor | done].
  - by rewrite andb_true_iff, Forall_cons, IH.
Qed.

(** If no related pair satisfies both predicates, the two cannot hold of
    some element on one side and of every element on the other, *)
Lemma existsb_forallb_exclusive (q : B → bool) l l' :
  Forall2 (λ a b, p a = true → q b = true → False) l l' →
  existsb p l = true → forallb q l' = true → False.
Proof.
  induction 1 as [|a b l l' Hab _ IH]; simpl; [done|].
  rewrite orb_true_iff, andb_true_iff. intros [?|?] [? ?]; eauto.
Qed.

(** and the two counts add up to the length at most. *)
Lemma count_exclusive (q : B → bool) l l' :
  Forall2 (λ a b, p a = true → q b = true → False) l l' →
  (sum_list_with (λ a, if p a then 1 else 0) l
   + sum_list_with (λ b, if q b then 1 else 0) l' ≤ length l)%nat.
Proof.
  induction 1 as [|a b l l' Hab _ IH]; simpl; [done|].
  destruct (p a) eqn:?, (q b) eqn:?; try lia; by destruct Hab.
Qed.

End BoolLists.

Lemma Forall2_and_r {A B} (P : A → B → Prop) (Q : B → Prop) l k :
  Forall2 P l k → Forall Q k → Forall2 (λ x y, P x y ∧ Q y) l k.
Proof.
  induction 1; inversion 1; subst; constructor; auto.
Qed.

Lemma elem_of_concat {A} (x : A) (ls : list (list A)) :
  x ∈ concat ls ↔ ∃ l, l ∈ ls ∧ x ∈ l.
Proof.
  induction ls as [|l ls IH]; simpl.
  - split; [by intros ?%elem_of_nil | by intros (? & ?%elem_of_nil & _)].
  - rewrite elem_of_app, IH. split.
    + intros [?|(l' & ? & ?)]; [exists l | exists l']; split; auto;
        apply elem_of_cons; auto.
    + intros (l' & [->|?]%elem_of_cons & ?); eauto.
Qed.

(** ** Unions of sets *)

Section Unions.
Context {K : Type} `{Countable K}.

Lemma foldl_union_L (s : gset K) (xs : list (gset K)) :
  foldl (∪) s xs = s ∪ ⋃ xs.
Proof.
  revert s. induction xs as [|a xs IH]; intros s; simpl.
  - by rewrite (right_id_L ∅ (∪)).
  - by rewrite IH, (assoc_L (∪)).
Qed.

Lemma set_union_Ok (xs : list (gset K)) :
  xs ≠ [] → set_union xs = Ok (⋃ xs).
Proof. destruct xs as [|s xs]; [done|]. intros _. simpl. by rewrite foldl_union_L. Qed.

End Unions.

(** ** Expressions *)

Section Expressions.
Context {T : Type} `{Countable T}.
Implicit Types (e d : Expr (T:=T)) (es ds : list (Expr (T:=T))).
Implicit Types (q xs ys : gset T) (qs : list (gset T)).
Implicit Types (qss : list (list (gset T))) (k : Z).

Lemma Expr_ind' (P : Expr (T:=T) → Prop) :
  (∀ n, P (Leaf n)) →
  (∀ es, Forall P es → P (Or es)) →
  (∀ es, Forall P es → P (And es)) →
  (∀ k es, Forall P es → P (Choose k es)) →
  ∀ e, P e.
Proof.
  intros HL HO HA HC. fix IH 1. intros [n|es|es|k es].
  - apply HL.
  - apply HO. induction es; constructor; [apply IH | assumption].
  - apply HA. induction es; constructor; [apply IH | assumption].
  - apply HC. induction es; constructor; [apply IH | assumption].
Qed.

Lemma len_0 {A} (l : list A) : len l = 0 ↔ l = [].
Proof. unfold len. destruct l; simpl; split; (done || lia). Qed.

Lemma Or_init_Ok es : es ≠ [] → Or_init es = Ok (Or es).
Proof. intros. unfold Or_init. rewrite bool_decide_eq_false_2; [done|]. by rewrite len_0. Qed.

Lemma And_init_Ok es : es ≠ [] → And_init es = Ok (And es).
Proof. intros. unfold And_init. rewrite bool_decide_eq_false_2; [done|]. by rewrite len_0. Qed.

Lemma Choose_init_Ok k es :
  1 ≤ k ≤ len es → Choose_init k es = Ok (Choose k es).
Proof.
  intros. unfold Choose_init.
  rewrite !bool_decide_eq_false_2; [done|lia..].
Qed.

Lemma wf_Or es : wf (Or es) = true ↔ es ≠ [] ∧ forallb wf es = true.
Proof.
  simpl. rewrite andb_true_iff, negb_true_iff, bool_decide_eq_false, len_0. done.
Qed.

Lemma wf_And es : wf (And es) = true ↔ es ≠ [] ∧ forallb wf es = true.
Proof.
  simpl. rewrite andb_true_iff, negb_true_iff, bool_decide_eq_false, len_0. done.
Qed.

Lemma wf_Choose k es :
  wf (Choose k es) = true ↔ 1 ≤ k ≤ len es ∧ forallb wf es = true.
Proof.
  simpl. rewrite andb_true_iff, negb_true_iff, orb_false_iff,
    !bool_decide_eq_false.
  intuition lia.
Qed.

(** From a property of every well-formed child to a list of results. *)
Lemma Forall_wf_Forall2 {B} (R : Expr (T:=T) → B → Prop) es :
  Forall (λ e, wf e = true → ∃ b, R e b) es →
  forallb wf es = true →
  ∃ bs, Forall2 (λ e b, wf e = true ∧ R e b) es bs.
Proof.
  induction 1 as [|e es He _ IH]; simpl.
  - exists []. constructor.
  - rewrite andb_true_iff. intros [Hwf Hes].
    destruct (He Hwf) as [b Hb], (IH Hes) as [bs Hbs].
    exists (b :: bs). by constructor.
Qed.

(** *** The enumeration, given the enumerations of the children *)

Lemma product_unions_Ok qss :
  qss ≠ [] → product_unions qss = Ok (and_qs qss).
Proof.
  intros Hne. apply mapM_Ok_fmap, Forall_forall.
  intros c Hc%product_length. apply set_union_Ok.
  intros ->. by destruct qss.
Qed.

Lemma quorums_Or es qss :
  Forall2 (λ e qs, quorums e = Ok qs) es qss →
  quorums (Or es) = Ok (concat qss).
Proof. intros Hes%mapM_Ok_Forall2. simpl. by rewrite Hes. Qed.

Lemma quorums_And es qss :
  es ≠ [] →
  Forall2 (λ e qs, quorums e = Ok qs) es qss →
  quorums (And es) = Ok (and_qs qss).
Proof.
  intros Hne Hes. assert (qss ≠ []) by (by destruct Hes).
  apply mapM_Ok_Forall2 in Hes. simpl. rewrite Hes. simpl.
  by apply product_unions_Ok.
Qed.

(** [Choose.quorums] as the source writes it: the Cartesian products of
    the enumerations of the children of every combination. *)
Lemma quorums_Choose_unfold k es :
  quorums (Choose k es) =
    if bool_decide (k < 0) then Raise ValueError else
    qss ← mapM (λ combo, qss ← mapM quorums combo; product_unions qss)
             (combinations es (Z.to_nat k));
    Ok (concat qss).
Proof.
  simpl. case_bool_decide; [done|].
  rewrite combinations_with_fmap, mapM_fmap.
  erewrite mapM_ext; [done|]. intros combo. simpl. by rewrite sequence_fmap.
Qed.

Lemma quorums_Choose k es qss :
  1 ≤ k →
  Forall2 (λ e qs, quorums e = Ok qs) es qss →
  quorums (Choose k es) = Ok (choose_qs (Z.to_nat k) qss).
Proof.
  intros Hk Hes. rewrite quorums_Choose_unfold.
  rewrite bool_decide_eq_false_2 by lia.
  erewrite bind_Ok; [done|].
  apply mapM_Ok_Forall2, Forall2_fmap_r.
  eapply Forall2_impl.
  - apply Forall2_and_r; [by apply Forall2_combinations|].
    apply (combinations_length qss (Z.to_nat k)).
  - simpl. intros c c' [Hc Hlen].
    apply mapM_Ok_Forall2 in Hc. rewrite Hc. simpl.
    apply product_unions_Ok. intros ->. simpl in Hlen. lia.
Qed.

(** *** An induction scheme over the well-formed expressions and their
    enumerations *)

Lemma quorums_wf_ind (P : Expr (T:=T) → list (gset T) → Prop) :
  (∀ n, P (Leaf n) [ {[ node_x n ]} ]) →
  (∀ es qss, es ≠ [] →
     Forall2 (λ e qs, wf e = true ∧ quorums e = Ok qs ∧ P e qs) es qss →
     P (Or es) (concat qss)) →
  (∀ es qss, es ≠ [] →
     Forall2 (λ e qs, wf e = true ∧ quorums e = Ok qs ∧ P e qs) es qss →
     P (And es) (and_qs qss)) →
  (∀ k es qss, 1 ≤ k ≤ len es →
     Forall2 (λ e qs, wf e = true ∧ quorums e = Ok qs ∧ P e qs) es qss →
     P (Choose k es) (choose_qs (Z.to_nat k) qss)) →
  ∀ e, wf e = true → ∃ qs, quorums e = Ok qs ∧ P e qs.
Proof.
  intros HL HO HA HC.
  induction e as [n|es IH|es IH|k es IH] using Expr_ind'.
  - intros _. eexists. split; [done|]. apply HL.
  - intros [Hne Hwf]%wf_Or.
    destruct (Forall_wf_Forall2 _ _ IH Hwf) as [qss Hqss].
    exists (concat qss). split; [|by apply HO].
    apply quorums_Or. eapply Forall2_impl; [exact Hqss|]. by intros ?? (? & ? & ?).
  - intros [Hne Hwf]%wf_And.
    destruct (Forall_wf_Forall2 _ _ IH Hwf) as [qss Hqss].
    exists (and_qs qss). split; [|by apply HA].
    apply quorums_And; [done|].
    eapply Forall2_impl; [exact Hqss|]. by intros ?? (? & ? & ?).
  - intros [Hk Hwf]%wf_Choose.
    destruct (Forall_wf_Forall2 _ _ IH Hwf) as [qss Hqss].
    exists (choose_qs (Z.to_nat k) qss). split; [|by apply HC].
    apply quorums_Choose; [lia|].
    eapply Forall2_impl; [exact Hqss|]. by intros ?? (? & ? & ?).
Qed.

Lemma quorums_is_Ok e : wf e = true → is_Ok (quorums e).
Proof.
  intros Hwf.
  destruct (quorums_wf_ind (λ _ _, True)) with (e := e) as (qs & ? & _);
    try done.
  by exists qs.
Qed.

(** *** Supersets of enumerated sets *)

Lemma elem_of_and_qs q qss :
  q ∈ and_qs qss ↔ ∃ c, Forall2 (∈) c qss ∧ q = ⋃ c.
Proof.
  unfold and_qs. rewrite list_elem_of_fmap.
  setoid_rewrite elem_of_product. split; intros (c & ? & ?); by exists c.
Qed.

Lemma covers_concat qss xs :
  covers (concat qss) xs ↔ Exists (λ qs, covers qs xs) qss.
Proof.
  unfold covers. rewrite Exists_exists. setoid_rewrite elem_of_concat.
  naive_solver.
Qed.

Lemma covers_and_qs qss xs :
  covers (and_qs qss) xs ↔ Forall (λ qs, covers qs xs) qss.
Proof.
  unfold covers. setoid_rewrite elem_of_and_qs.
  induction qss as [|qs qss IH].
  - split; [constructor|]. intros _. exists ∅. split; [|set_solver].
    exists []. split; [constructor|done].
  - rewrite Forall_cons, <-IH. split.
    + intros (q & (c & Hc & ->) & Hsub).
      inversion Hc as [|a ? c' ? Ha Hc']; subst. simpl in Hsub. split.
      * exists a. split; [done|set_solver].
      * exists (⋃ c'). split; [by exists c'|set_solver].
    + intros [(a & Ha & Hsa) (q' & (c' & Hc' & ->) & Hsub)].
      exists (a ∪ ⋃ c'). split; [|set_solver].
      exists (a :: c'). split; [by constructor|done].
Qed.

Lemma covers_choose_qs (n : nat) qss xs :
  covers (choose_qs n qss) xs ↔
  ∃ c, c ∈ combinations qss n ∧ Forall (λ qs, covers qs xs) c.
Proof.
  unfold choose_qs. rewrite covers_concat, Exists_exists.
  setoid_rewrite list_elem_of_fmap. split.
  - intros (qs & (c & -> & Hc) & Hcov). exists c. split; [done|].
    by apply covers_and_qs.
  - intros (c & Hc & Hcov). exists (and_qs c). split; [by exists c|].
    by apply covers_and_qs.
Qed.

(** [is_quorum] is the superset closure of the enumeration. *)
Lemma is_quorum_covers e :
  wf e = true →
  ∃ qs, quorums e = Ok qs ∧ ∀ xs, is_quorum e xs = true ↔ covers qs xs.
Proof.
  apply (quorums_wf_ind (λ e qs, ∀ xs, is_quorum e xs = true ↔ covers qs xs)).
  - intros n xs. simpl. rewrite bool_decide_eq_true. unfold covers. split.
    + intros Hx. exists {[ node_x n ]}. split; [by left|set_solver].
    + intros (q & ->%list_elem_of_singleton & Hq). set_solver.
  - intros es qss _ Hes xs. simpl. rewrite covers_concat.
    apply existsb_Forall2. eapply Forall2_impl; [exact Hes|]. naive_solver.
  - intros es qss _ Hes xs. simpl. rewrite covers_and_qs.
    apply forallb_Forall2. eapply Forall2_impl; [exact Hes|]. naive_solver.
  - intros k es qss Hk Hes xs. simpl.
    rewrite bool_decide_eq_true, py_sum_indicator, covers_choose_qs.
    rewrite (combinations_count (λ e, is_quorum e xs) (λ qs, covers qs xs) es qss).
    + lia.
    + eapply Forall2_impl; [exact Hes|]. naive_solver.
Qed.

Lemma elem_of_quorums_is_quorum e qs q :
  wf e = true → quorums e = Ok qs → q ∈ qs → is_quorum e q = true.
Proof.
  intros (qs' & Hqs' & Hcov)%is_quorum_covers Hqs Hq.
  rewrite Hqs in Hqs'. injection Hqs' as <-.
  apply Hcov. by exists q.
Qed.

(** *** The nodes and the enumerated sets *)

Lemma Forall_wf (P : Expr (T:=T) → Prop) es :
  Forall (λ e, wf e = true → P e) es → forallb wf es = true → Forall P es.
Proof.
  induction 1 as [|e es He _ IH]; simpl; [constructor|].
  rewrite andb_true_iff. intros [? ?]. constructor; auto.
Qed.

Lemma union_list_leaves es :
  ⋃ ((λ e, list_to_set (leaves e)) <$> es)
  =@{gset Node} list_to_set (concat (leaves <$> es)).
Proof.
  induction es as [|e es IH]; csimpl; [done|].
  by rewrite list_to_set_app_L, IH.
Qed.

Lemma nodes_children es :
  es ≠ [] →
  Forall (λ e, nodes e = Ok (list_to_set (leaves e))) es →
  (ns ← mapM nodes es; set_union ns)
  = Ok (list_to_set (concat (leaves <$> es))).
Proof.
  intros Hne Hes. apply mapM_Ok_fmap in Hes.
  erewrite bind_Ok by exact Hes.
  rewrite set_union_Ok; [by rewrite union_list_leaves | by destruct es].
Qed.

(** [nodes] collects the objects at the leaves. *)
Lemma nodes_leaves e :
  wf e = true → nodes e = Ok (list_to_set (leaves e)).
Proof.
  induction e as [n|es IH|es IH|k es IH] using Expr_ind'.
  - intros _. simpl. f_equal. set_solver.
  - intros [Hne Hwf]%wf_Or. apply nodes_children; [done|].
    by apply Forall_wf.
  - intros [Hne Hwf]%wf_And. apply nodes_children; [done|].
    by apply Forall_wf.
  - intros [Hk Hwf]%wf_Choose. apply nodes_children.
    + intros ->. unfold len in Hk. simpl in Hk. lia.
    + by apply Forall_wf.
Qed.

Lemma nonempty_within_mono (ns ns' : gset Node) qs :
  ns ⊆ ns' → nonempty_within ns qs → nonempty_within ns' qs.
Proof.
  intros Hns Hqs q Hq. destruct (Hqs q Hq) as [? Hsub]. split; [done|].
  unfold identities in *. set_solver.
Qed.

Lemma nonempty_within_children es qss :
  Forall2 (λ e qs, wf e = true ∧ quorums e = Ok qs
                   ∧ nonempty_within (list_to_set (leaves e)) qs) es qss →
  Forall (nonempty_within (list_to_set (concat (leaves <$> es)))) qss.
Proof.
  induction 1 as [|e qs es qss (_ & _ & He) _ IH]; [constructor|].
  simpl. constructor.
  - eapply nonempty_within_mono; [|exact He]. set_solver.
  - eapply Forall_impl; [exact IH|]. intros qs'.
    apply nonempty_within_mono. set_solver.
Qed.

Lemma nonempty_within_concat (ns : gset Node) qss :
  Forall (nonempty_within ns) qss → nonempty_within ns (concat qss).
Proof.
  intros Hqss q (qs & Hqs & Hq)%elem_of_concat.
  rewrite Forall_forall in Hqss. by apply (Hqss qs).
Qed.

Lemma nonempty_within_and_qs (ns : gset Node) qss :
  qss ≠ [] → Forall (nonempty_within ns) qss →
  nonempty_within ns (and_qs qss).
Proof.
  intros Hne Hqss q (c & Hc & ->)%elem_of_and_qs.
  assert (Forall (λ a, a ≠ ∅ ∧ a ⊆ identities ns) c) as Hall.
  { clear Hne. induction Hc as [|a qs c qss Ha _ IH]; [constructor|].
    inversion Hqss as [|? ? Hqs Hqss']; subst. constructor; auto. }
  destruct Hc as [|a qs c qss Ha Hc]; [done|].
  inversion Hall as [|? ? [Hane Hasub] Hall']; subst. simpl. split.
  - set_solver.
  - intros x [Hx|(X & HX & Hx)%elem_of_union_list]%elem_of_union.
    + by apply Hasub.
    + rewrite Forall_forall in Hall'. by apply (Hall' X HX).
Qed.

Lemma combinations_Forall {A} (P : A → Prop) (l c : list A) n :
  Forall P l → c ∈ combinations l n → Forall P c.
Proof.
  intros Hl. revert n c.
  induction Hl as [|a l Ha _ IH]; intros [|n] c; simpl.
  - by intros ->%list_elem_of_singleton.
  - by intros ?%elem_of_nil.
  - by intros ->%list_elem_of_singleton.
  - intros [(c' & -> & Hc')%list_elem_of_fmap|Hc]%elem_of_app; eauto.
Qed.

Lemma nonempty_within_choose_qs (ns : gset Node) (n : nat) qss :
  (1 ≤ n)%nat → Forall (nonempty_within ns) qss →
  nonempty_within ns (choose_qs n qss).
Proof.
  intros Hn Hqss. apply nonempty_within_concat, Forall_fmap, Forall_forall.
  intros c Hc. simpl. apply nonempty_within_and_qs.
  - pose proof (combinations_length qss n) as Hlen.
    rewrite Forall_forall in Hlen. apply Hlen in Hc.
    intros ->. simpl in Hc. lia.
  - by eapply combinations_Forall.
Qed.

Lemma quorums_nonempty_within e :
  wf e = true →
  ∃ qs, quorums e = Ok qs ∧ nonempty_within (list_to_set (leaves e)) qs.
Proof.
  apply (quorums_wf_ind (λ e qs, nonempty_within (list_to_set (leaves e)) qs)).
  - intros n q ->%list_elem_of_singleton. simpl. unfold identities.
    split; set_solver.
  - intros es qss _ Hes. simpl.
    by apply nonempty_within_concat, nonempty_within_children.
  - intros es qss Hne Hes. simpl.
    apply nonempty_within_and_qs; [|by apply nonempty_within_children].
    intros ->. by inversion Hes.
  - intros k es qss Hk Hes. simpl.
    apply nonempty_within_choose_qs; [lia|].
    by apply nonempty_within_children.
Qed.

(** *** Duals *)

Lemma Forall2_right {A B} (Q : B → Prop) (l : list A) (k : list B) :
  Forall2 (λ _ y, Q y) l k → Forall Q k.
Proof. induction 1; constructor; auto. Qed.

(** The duals of the children of a well-formed expression. *)
Lemma dual_children (R : Expr (T:=T) → Expr (T:=T) → Prop) es :
  Forall (λ e, wf e = true →
    ∃ d, dual e = Ok d ∧ wf d = true ∧ dual d = Ok e ∧ R e d) es →
  forallb wf es = true →
  ∃ ds, mapM dual es = Ok ds ∧ mapM dual ds = Ok es
        ∧ forallb wf ds = true ∧ length ds = length es ∧ Forall2 R es ds.
Proof.
  intros IH Hwf. destruct (Forall_wf_Forall2 _ _ IH Hwf) as [ds Hds].
  exists ds. repeat split.
  - apply mapM_Ok_Forall2. eapply Forall2_impl; [exact Hds|]. naive_solver.
  - apply mapM_Ok_Forall2, Forall2_flip.
    eapply Forall2_impl; [exact Hds|]. naive_solver.
  - apply forallb_Forall, (Forall2_right _ es).
    eapply Forall2_impl; [exact Hds|]. naive_solver.
  - symmetry. by eapply Forall2_length.
  - eapply Forall2_impl; [exact Hds|]. naive_solver.
Qed.

(** The dual of a well-formed expression is a well-formed expression whose
    dual is the expression itself, and a quorum of the one is never disjoint
    from a quorum of the other. *)
Lemma dual_spec e :
  wf e = true →
  ∃ d, dual e = Ok d ∧ wf d = true ∧ dual d = Ok e ∧
       ∀ xs ys, xs ## ys →
         is_quorum e xs = true → is_quorum d ys = true → False.
Proof.
  induction e as [n|es IH|es IH|k es IH] using Expr_ind'.
  - intros _. exists (Leaf n). repeat split. simpl. intros xs ys Hdisj.
    rewrite !bool_decide_eq_true. set_solver.
  - intros [Hne Hwf]%wf_Or.
    destruct (dual_children _ _ IH Hwf) as (ds & H1 & H2 & H3 & H4 & H5).
    assert (ds ≠ []) as Hds by (intros ->; by destruct es).
    exists (And ds). split; [|split; [|split]].
    + simpl. erewrite bind_Ok by exact H1. by apply And_init_Ok.
    + by apply wf_And.
    + simpl. erewrite bind_Ok by exact H2. by apply Or_init_Ok.
    + intros xs ys Hdisj. simpl.
      apply existsb_forallb_exclusive.
      eapply Forall2_impl; [exact H5|]. simpl. eauto.
  - intros [Hne Hwf]%wf_And.
    destruct (dual_children _ _ IH Hwf) as (ds & H1 & H2 & H3 & H4 & H5).
    assert (ds ≠ []) as Hds by (intros ->; by destruct es).
    exists (Or ds). split; [|split; [|split]].
    + simpl. erewrite bind_Ok by exact H1. by apply Or_init_Ok.
    + by apply wf_Or.
    + simpl. erewrite bind_Ok by exact H2. by apply And_init_Ok.
    + intros xs ys Hdisj. simpl. intros Hall Hex.
      revert Hex Hall. apply existsb_forallb_exclusive, Forall2_flip.
      eapply Forall2_impl; [exact H5|]. simpl. eauto.
  - intros [Hk Hwf]%wf_Choose.
    destruct (dual_children _ _ IH Hwf) as (ds & H1 & H2 & H3 & H4 & H5).
    assert (len ds = len es) as Hlen by (unfold len; lia).
    exists (Choose (len es - k + 1) ds). split; [|split; [|split]].
    + simpl. erewrite bind_Ok by exact H1. apply Choose_init_Ok. lia.
    + apply wf_Choose. split; [lia|done].
    + simpl. erewrite bind_Ok by exact H2.
      replace (len ds - (len es - k + 1) + 1) with k by lia.
      by apply Choose_init_Ok.
    + intros xs ys Hdisj. simpl.
      rewrite !bool_decide_eq_true, !py_sum_indicator.
      pose proof (count_exclusive (λ e, is_quorum e xs)
                    (λ d, is_quorum d ys) es ds) as Hcount.
      unfold len in *. intros ? ?.
      assert (Forall2 (λ e d, is_quorum e xs = true →
                              is_quorum d ys = true → False) es ds) as HF.
      { eapply Forall2_impl; [exact H5|]. simpl. eauto. }
      apply Hcount in HF. lia.
Qed.

Lemma dual_is_Ok e : wf e = true → ∃ d, dual e = Ok d ∧ wf d = true.
Proof. intros (d & ? & ? & _)%dual_spec. eauto. Qed.

Lemma dual_involutive e d : wf e = true → dual e = Ok d → dual d = Ok e.
Proof. intros (d' & Hd' & _ & ? & _)%dual_spec Hd. congruence. Qed.

(** Every enumerated set of an expression meets every enumerated set of its
    dual. *)
Lemma quorums_dual_intersect e d qs qs' r w :
  wf e = true → dual e = Ok d →
  quorums e = Ok qs → quorums d = Ok qs' →
  r ∈ qs → w ∈ qs' → r ∩ w ≠ ∅.
Proof.
  intros Hwf Hd Hqs Hqs' Hr Hw.
  destruct (dual_spec e Hwf) as (d' & Hd' & Hwfd & _ & Hexcl).
  assert (d' = d) as -> by congruence.
  intros Hempty. apply (Hexcl r w).
  - set_solver.
  - by eapply elem_of_quorums_is_quorum.
  - by eapply elem_of_quorums_is_quorum.
Qed.

(** *** The constructors return well-formed expressions *)

Lemma Or_init_wf es e :
  Or_init es = Ok e → forallb wf es = true → wf e = true.
Proof.
  unfold Or_init. case_bool_decide as Hlen; [done|]. intros [= <-] Hes.
  apply wf_Or. by rewrite len_0 in Hlen.
Qed.

Lemma And_init_wf es e :
  And_init es = Ok e → forallb wf es = true → wf e = true.
Proof.
  unfold And_init. case_bool_decide as Hlen; [done|]. intros [= <-] Hes.
  apply wf_And. by rewrite len_0 in Hlen.
Qed.

Lemma Choose_init_wf k es e :
  Choose_init k es = Ok e → forallb wf es = true → wf e = true.
Proof.
  unfold Choose_init. intros He Hes.
  destruct (bool_decide (k ≤ 0) || bool_decide (k > len es)) eqn:Hk; [done|].
  injection He as <-. simpl. by rewrite Hk, Hes.
Qed.

Lemma choose_wf k es e :
  choose k es = Ok e → forallb wf es = true → wf e = true.
Proof.
  unfold choose. repeat case_bool_decide;
    eauto using Or_init_wf, And_init_wf, Choose_init_wf.
Qed.

Lemma bind_Ok_inv {A B} (m : result A) (g : A → result B) b :
  m ≫= g = Ok b → ∃ a, m = Ok a ∧ g a = Ok b.
Proof. destruct m as [a|]; [|done]. by exists a. Qed.

(** *** [choose] against [Choose] *)

Lemma and_qs_singleton qs : and_qs [qs] = qs.
Proof.
  unfold and_qs. simpl. induction qs as [|q qs IH]; [done|].
  csimpl. rewrite IH. f_equal. set_solver.
Qed.

Lemma choose_qs_1 qss : choose_qs 1 qss = concat qss.
Proof.
  unfold choose_qs. rewrite combinations_1, <-list_fmap_compose.
  induction qss as [|qs qss IH]; [done|].
  csimpl. by rewrite IH, and_qs_singleton.
Qed.

Lemma choose_qs_all qss : choose_qs (length qss) qss = and_qs qss.
Proof.
  unfold choose_qs. rewrite combinations_all. simpl. apply app_nil_r.
Qed.

Lemma quorums_children es :
  forallb wf es = true →
  ∃ qss, Forall2 (λ e qs, quorums e = Ok qs) es qss.
Proof.
  intros Hwf.
  destruct (Forall_wf_Forall2 (λ e qs, quorums e = Ok qs) es) as [qss Hqss];
    [|done|].
  - apply Forall_forall. intros e _. apply quorums_is_Ok.
  - exists qss. eapply Forall2_impl; [exact Hqss|]. naive_solver.
Qed.

(** ** The properties of the expressions *)

(** C1. Boolean consistency: for every expression [e] (one that the
    constructors return) the enumeration [e.quorums()] ends, and for every
    set [xs], [e.is_quorum(xs)] is true if and only if [xs] is a superset of
    some set that [e.quorums()] enumerates. *)
Theorem is_quorum_iff_superset (e : Expr (T:=T)) :
  wf e = true →
  ∃ qs, quorums e = Ok qs ∧
        ∀ xs, is_quorum e xs = true ↔ ∃ q, q ∈ qs ∧ q ⊆ xs.
Proof. apply is_quorum_covers. Qed.

(** C2. Intersection: a [QuorumSystem] built from the reads alone (the
    writes are the dual of the reads) or from the writes alone (the reads
    are the dual of the writes) is built without error, and every set of
    [read_quorums()] meets every set of [write_quorums()]. *)
Theorem single_side_quorums_intersect (e : Expr (T:=T)) :
  wf e = true →
  (∃ sys rqs wqs,
     QuorumSystem_init (Some e) None = Ok sys ∧
     reads sys = e ∧ dual e = Ok (writes sys) ∧
     read_quorums sys = Ok rqs ∧ write_quorums sys = Ok wqs ∧
     ∀ r w, r ∈ rqs → w ∈ wqs → r ∩ w ≠ ∅) ∧
  (∃ sys rqs wqs,
     QuorumSystem_init None (Some e) = Ok sys ∧
     writes sys = e ∧ dual e = Ok (reads sys) ∧
     read_quorums sys = Ok rqs ∧ write_quorums sys = Ok wqs ∧
     ∀ r w, r ∈ rqs → w ∈ wqs → r ∩ w ≠ ∅).
Proof.
  intros Hwf.
  destruct (dual_is_Ok e Hwf) as (d & Hd & Hwfd).
  destruct (quorums_is_Ok e Hwf) as [qs Hqs].
  destruct (quorums_is_Ok d Hwfd) as [qs' Hqs'].
  split.
  - exists (mkQuorumSystem e d), qs, qs'. simpl. rewrite Hd.
    repeat split; try done.
    intros r w Hr Hw.
    exact (quorums_dual_intersect e d qs qs' r w Hwf Hd Hqs Hqs' Hr Hw).
  - exists (mkQuorumSystem d e), qs', qs. simpl. rewrite Hd.
    repeat split; try done.
    intros r w Hr Hw. rewrite (comm_L (∩)).
    exact (quorums_dual_intersect e d qs qs' w r Hwf Hd Hqs Hqs' Hw Hr).
Qed.

Lemma dual_dual_shape e d : dual e = Ok d → dual_shape e d.
Proof.
  destruct e as [n|es|es|k es]; simpl.
  - by intros [= <-].
  - intros (ds & Hds & Hd)%bind_Ok_inv. unfold And_init in Hd.
    case_bool_decide; [done|]. by injection Hd as <-.
  - intros (ds & Hds & Hd)%bind_Ok_inv. unfold Or_init in Hd.
    case_bool_decide; [done|]. by injection Hd as <-.
  - intros (ds & Hds & Hd)%bind_Ok_inv. unfold Choose_init in Hd.
    destruct (_ || _); [done|]. by injection Hd as <-.
Qed.

(** C3. Dual involution: the dual [d] of an expression [e] has the shape
    [dual_shape], and the dual of [d] enumerates the same set of quorums (as
    a set of sets) as [e]. *)
Theorem dual_dual_quorums (e : Expr (T:=T)) :
  wf e = true →
  ∃ d dd qs qs',
    dual e = Ok d ∧ dual_shape e d ∧
    dual d = Ok dd ∧ dual_shape d dd ∧
    quorums e = Ok qs ∧ quorums dd = Ok qs' ∧
    list_to_set qs =@{gset (gset T)} list_to_set qs'.
Proof.
  intros Hwf.
  destruct (dual_spec e Hwf) as (d & Hd & Hwfd & Hdd & _).
  destruct (quorums_is_Ok e Hwf) as [qs Hqs].
  exists d, e, qs, qs. repeat split; auto using dual_dual_shape.
Qed.

(** C5, as amended. [Node] defines no equality of its own: two [Node]
    objects are equal only when they are one object, whatever identity [x]
    they carry. [nodes()] is the set of the [Node] objects at the leaves, so
    two distinct objects at the leaves of an expression count as two
    elements of it, also when they carry the same [x]; it is the set of
    their identities in which they count as one. *)
Theorem nodes_by_object_identity (e : Expr (T:=T)) (n1 n2 : Node) :
  wf e = true → n1 ∈ leaves e → n2 ∈ leaves e →
  node_id n1 ≠ node_id n2 → node_x n1 = node_x n2 →
  Node_eq n1 n2 = false ∧
  ∃ ns, nodes e = Ok ns ∧ (∀ n, n ∈ ns ↔ n ∈ leaves e) ∧
        n1 ∈ ns ∧ n2 ∈ ns ∧ n1 ≠ n2 ∧ (2 ≤ size ns)%nat ∧
        identities {[ n1; n2 ]} = {[ node_x n1 ]}.
Proof.
  intros Hwf H1 H2 Hid Hx. split.
  { unfold Node_eq. by apply bool_decide_eq_false. }
  exists (list_to_set (leaves e)).
  assert (n1 ≠ n2) as Hne by congruence.
  split; [by apply nodes_leaves|].
  split; [set_solver|]. split; [set_solver|]. split; [set_solver|].
  split; [done|]. split.
  - apply (Nat.le_trans _ (size ({[ n1; n2 ]} : gset Node))).
    + rewrite size_union, !size_singleton by set_solver. done.
    + apply subseteq_size. set_solver.
  - unfold identities. set_solver.
Qed.

(** C7. The constructors: [Or] and [And] raise [ValueError] on an empty
    list of children and succeed on every other list; [Choose(k, es)]
    raises [ValueError] when [k < 1] or [k > len(es)] and succeeds for every
    [k] with [1 <= k <= len(es)]. *)
Theorem constructors_validate (k : Z) (es : list (Expr (T:=T))) :
  (Or_init es = Raise ValueError ↔ es = []) ∧
  (Or_init es = Ok (Or es) ↔ es ≠ []) ∧
  (And_init es = Raise ValueError ↔ es = []) ∧
  (And_init es = Ok (And es) ↔ es ≠ []) ∧
  (Choose_init k es = Raise ValueError ↔ k < 1 ∨ k > len es) ∧
  (Choose_init k es = Ok (Choose k es) ↔ 1 ≤ k ≤ len es).
Proof.
  unfold Or_init, And_init, Choose_init.
  pose proof (len_0 es) as H0.
  repeat split; repeat case_bool_decide; simpl; try done; try lia;
    try tauto; try (intros; exfalso; tauto).
Qed.

(** C9. Every set that [e.quorums()] enumerates is non-empty and is a
    subset of the identities [{n.x : n ∈ e.nodes()}]. *)
Theorem quorums_nonempty_subset_nodes (e : Expr (T:=T)) :
  wf e = true →
  ∃ qs ns, quorums e = Ok qs ∧ nodes e = Ok ns ∧
           ∀ q, q ∈ qs → q ≠ ∅ ∧ q ⊆ identities ns.
Proof.
  intros Hwf. destruct (quorums_nonempty_within e Hwf) as (qs & Hqs & Hin).
  exists qs, (list_to_set (leaves e)). by rewrite nodes_leaves.
Qed.

(** C10. For children [es] and [1 <= k <= len(es)], [choose(k, es)] --
    [Or(es)] when [k = 1], [And(es)] when [k = len(es)], [Choose(k, es)]
    otherwise -- enumerates the same quorums as [Choose(k, es)], in the same
    order, hence the same set of sets. *)
Theorem choose_same_quorums (k : Z) (es : list (Expr (T:=T))) :
  1 ≤ k ≤ len es → forallb wf es = true →
  ∃ e qs qs',
    choose k es = Ok e ∧
    e = (if bool_decide (k = 1) then Or es
         else if bool_decide (k = len es) then And es else Choose k es) ∧
    quorums e = Ok qs ∧ quorums (Choose k es) = Ok qs' ∧
    qs = qs' ∧ list_to_set qs =@{gset (gset T)} list_to_set qs'.
Proof.
  intros Hk Hwf. destruct (quorums_children es Hwf) as [qss Hqss].
  assert (es ≠ []) as Hne.
  { intros ->. unfold len in Hk. simpl in Hk. lia. }
  pose proof (quorums_Choose k es qss (proj1 Hk) Hqss) as HC.
  exists (if bool_decide (k = 1) then Or es
          else if bool_decide (k = len es) then And es else Choose k es).
  exists (choose_qs (Z.to_nat k) qss), (choose_qs (Z.to_nat k) qss).
  unfold choose. repeat case_bool_decide; subst.
  - repeat split; [by apply Or_init_Ok| |done].
    change (Z.to_nat 1) with 1%nat. rewrite choose_qs_1.
    by apply quorums_Or.
  - repeat split; [by apply And_init_Ok| |done].
    unfold len. rewrite Nat2Z.id, (Forall2_length _ _ _ Hqss), choose_qs_all.
    by apply quorums_And.
  - repeat split; [by apply Choose_init_Ok|done..].
Qed.

(** C8. The majority of three nodes: [majority(es)] is
    [choose(len(es) // 2 + 1, es)], and for the [QuorumSystem] with reads
    [majority([a, b, c])] the read quorums and the write quorums are both
    [{a, b}], [{a, c}], [{b, c}]. *)
Theorem majority_of_three (a b c : Node (T:=T)) :
  (∀ es : list (Expr (T:=T)), majority es = choose (len es `div` 2 + 1) es) ∧
  ∃ e sys,
    majority [Leaf a; Leaf b; Leaf c] = Ok e ∧
    QuorumSystem_init (Some e) None = Ok sys ∧
    read_quorums sys
      = Ok [ {[ node_x a; node_x b ]}; {[ node_x a; node_x c ]};
             {[ node_x b; node_x c ]} ] ∧
    write_quorums sys
      = Ok [ {[ node_x a; node_x b ]}; {[ node_x a; node_x c ]};
             {[ node_x b; node_x c ]} ].
Proof.
  split; [done|].
  exists (Choose 2 [Leaf a; Leaf b; Leaf c]).
  exists (mkQuorumSystem (Choose 2 [Leaf a; Leaf b; Leaf c])
                         (Choose 2 [Leaf a; Leaf b; Leaf c])).
  repeat split.
Qed.

End Expressions.

(** ** Loads *)

Lemma Qltb_lt (a b : Q) : Qltb a b = true ↔ (a < b)%Q.
Proof.
  unfold Qltb. rewrite negb_true_iff. split.
  - intros Hle. apply Qnot_le_lt. intros Hba%Qle_bool_iff. congruence.
  - intros Hlt. apply not_true_is_false. intros Hba%Qle_bool_iff.
    by apply (Qlt_not_le a b).
Qed.

Lemma fdiv_Ok (a b : Q) : ¬ (b == 0)%Q → fdiv a b = Ok (a / b)%Q.
Proof.
  intros Hb. unfold fdiv. destruct (Qeq_bool b 0) eqn:E; [|done].
  by apply Qeq_bool_iff in E.
Qed.

Lemma py_max_step (m b : Q) : ((if Qltb m b then b else m) == Qmax m b)%Q.
Proof.
  destruct (Qltb m b) eqn:E.
  - apply Qltb_lt in E. symmetry. apply Q.max_r. by apply Qlt_le_weak.
  - symmetry. apply Q.max_l. apply Qnot_lt_le. intros Hlt%Qltb_lt. congruence.
Qed.

Lemma foldl_py_max (a a' : Q) (l l' : list Q) :
  (a == a')%Q → Forall2 Qeq l l' →
  (foldl (λ m b, if Qltb m b then b else m) a l == Qmax_list a' l')%Q.
Proof.
  intros Ha Hl. revert a a' Ha.
  induction Hl as [|b b' l l' Hb _ IH]; intros a a' Ha; simpl; [done|].
  apply IH. rewrite py_max_step. by rewrite Ha, Hb.
Qed.

Lemma Qsum_Qeq (l l' : list Q) : Forall2 Qeq l l' → (Qsum l == Qsum l')%Q.
Proof.
  unfold Qsum. intros Hl.
  assert (∀ b c, (b == c)%Q → (foldl Qplus b l == foldl Qplus c l')%Q) as Hf.
  { induction Hl as [|x y l l' Hxy _ IH]; intros b c Hbc; simpl; [done|].
    apply IH. by rewrite Hbc, Hxy. }
  by apply Hf.
Qed.

Lemma mapM_Qeq {A} (f : A → result Q) (g : A → Q) (l : list A) :
  Forall (λ a, ∃ v, f a = Ok v ∧ (v == g a)%Q) l →
  ∃ vs, mapM f l = Ok vs ∧ Forall2 Qeq vs (g <$> l).
Proof.
  induction 1 as [|a l (v & Hv & Hva) _ (vs & Hvs & IH)].
  - exists []. split; [done|constructor].
  - exists (v :: vs). split; [|by constructor].
    by rewrite mapM_cons, Hv, Hvs.
Qed.

Section Strategies.
Context {T : Type} `{Countable T}.
Implicit Types (nodes : gset (Node (T:=T))) (n : Node (T:=T)).
Implicit Types (reads writes : list (gset T)) (fr : Q).

(** The table of capacities holds, under the identity of every node, the
    capacity of a node with that identity. *)
Lemma capacity_table_lookup (c : Node → Q) nodes n :
  n ∈ nodes →
  ∃ n', n' ∈ nodes ∧ node_x n' = node_x n
        ∧ capacity_table c nodes !! node_x n = Some (c n').
Proof.
  unfold capacity_table. intros Hn%elem_of_elements.
  assert (∃ n', n' ∈ elements nodes ∧ node_x n' = node_x n ∧
    foldl (λ (m : gmap T Q) n0, <[node_x n0 := c n0]> m) ∅ (elements nodes)
      !! node_x n = Some (c n')) as (n' & Hn' & ? & ?); [|exists n'; set_solver].
  revert Hn. generalize (elements nodes) as l.
  induction l as [|a l IH] using rev_ind; [by intros ?%elem_of_nil|].
  rewrite foldl_app. simpl. intros Hn.
  destruct (decide (node_x a = node_x n)) as [Heq|Hne].
  - exists a. rewrite Heq, lookup_insert_eq. set_solver.
  - rewrite lookup_insert_ne by done.
    destruct IH as (n' & ? & ? & ?); [set_solver|].
    exists n'. set_solver.
Qed.

Lemma node_load_Strategy_init nodes reads rws writes wws n fr :
  capacities_nonzero nodes → n ∈ nodes →
  ∃ v, _node_load (Strategy_init nodes reads rws writes wws) (node_x n) fr
       = Ok v
       ∧ (v == node_load (Strategy_init nodes reads rws writes wws)
                 (node_x n) fr)%Q.
Proof.
  intros Hcap Hn.
  destruct (capacity_table_lookup read_capacity nodes n Hn)
    as (nr & Hnr & _ & Hr).
  destruct (capacity_table_lookup write_capacity nodes n Hn)
    as (nw & Hnw & _ & Hw).
  destruct (Hcap nr Hnr) as [Hr0 _], (Hcap nw Hnw) as [_ Hw0].
  unfold _node_load, node_load, dict_get, defaultdict_get. simpl.
  rewrite Hr, Hw. simpl. rewrite !fdiv_Ok by done. simpl.
  eexists. split; [reflexivity|].
  destruct (unweighted_load reads rws !! node_x n),
    (unweighted_load writes wws !! node_x n); simpl;
    unfold Qdiv; ring.
Qed.

Lemma node_load_ExplicitStrategy_init nodes reads rws writes wws n fr :
  capacities_nonzero nodes → n ∈ nodes →
  ∃ v, ExplicitStrategy_node_load
         (ExplicitStrategy_init nodes reads rws writes wws)
         (unweighted_load reads rws) (unweighted_load writes wws) fr
         (node_x n) = Ok v
       ∧ (v == node_load (Strategy_init nodes reads rws writes wws)
                 (node_x n) fr)%Q.
Proof.
  intros Hcap Hn.
  destruct (capacity_table_lookup read_capacity nodes n Hn)
    as (nr & Hnr & _ & Hr).
  destruct (capacity_table_lookup write_capacity nodes n Hn)
    as (nw & Hnw & _ & Hw).
  destruct (Hcap nr Hnr) as [Hr0 _], (Hcap nw Hnw) as [_ Hw0].
  unfold ExplicitStrategy_node_load, node_load, dict_get, defaultdict_get.
  simpl. rewrite Hr, Hw.
  destruct (unweighted_load reads rws !! node_x n) as [lr|],
    (unweighted_load writes wws !! node_x n) as [lw|]; simpl;
    repeat (case_bool_decide as Hs;
            [|try (exfalso; apply Hs; eauto)];
            try (by apply is_Some_None in Hs));
    simpl; rewrite ?fdiv_Ok by done; simpl;
    (eexists; split; [reflexivity|]); ring.
Qed.

Lemma py_max_node_loads nodes (f : Node → result Q) (g : Node → Q) :
  nodes ≠ ∅ →
  (∀ n, n ∈ nodes → ∃ v, f n = Ok v ∧ (v == g n)%Q) →
  ∃ v, (ls ← mapM f (elements nodes); py_max ls) = Ok v ∧
       (v == match g <$> elements nodes with
             | [] => 0
             | a :: l => Qmax_list a l
             end)%Q.
Proof.
  intros Hne Hf.
  destruct (mapM_Qeq f g (elements nodes)) as (vs & Hvs & Hall).
  { apply Forall_forall. intros n Hn%elem_of_elements. by apply Hf. }
  rewrite Hvs. simpl.
  destruct (elements nodes) as [|a l] eqn:E.
  { exfalso. apply Hne, leibniz_equiv. by apply elements_empty_iff. }
  rewrite fmap_cons in Hall |- *.
  inversion Hall as [|v w vs' ws Hvw Hall']; subst.
  exists (foldl (λ m b, if Qltb m b then b else m) v vs').
  split; [done|]. by apply foldl_py_max.
Qed.

(** [Strategy._load(fr)] is the largest pointwise node load. *)
Lemma _load_max_node_load nodes reads rws writes wws fr :
  nodes ≠ ∅ → capacities_nonzero nodes →
  ∃ v, _load (Strategy_init nodes reads rws writes wws) fr = Ok v ∧
       (v == max_node_load (Strategy_init nodes reads rws writes wws) fr)%Q.
Proof.
  intros Hne Hcap. unfold _load, max_node_load.
  apply (py_max_node_loads nodes
    (λ node, _node_load (Strategy_init nodes reads rws writes wws)
               (node_x node) fr)
    (λ node, node_load (Strategy_init nodes reads rws writes wws)
               (node_x node) fr)); [done|].
  intros n Hn. by apply node_load_Strategy_init.
Qed.

(** [Strategy.load] of [strategy.py] is the expected worst-case load, *)
Lemma Strategy_load_expected_worst_case nodes reads rws writes wws d :
  nodes ≠ ∅ → capacities_nonzero nodes →
  ∃ v, Strategy_load (Strategy_init nodes reads rws writes wws) d = Ok v ∧
       (v == expected_worst_case_load
               (Strategy_init nodes reads rws writes wws) d)%Q.
Proof.
  intros Hne Hcap. unfold Strategy_load, expected_worst_case_load.
  edestruct (mapM_Qeq
    (λ p : Q * Q, l ← _load (Strategy_init nodes reads rws writes wws) p.1;
                  Ok (p.2 * l)%Q)
    (λ p, (p.2 * max_node_load
                   (Strategy_init nodes reads rws writes wws) p.1)%Q) d)
    as (vs & Hvs & Hall).
  { apply Forall_forall. intros p _.
    destruct (_load_max_node_load nodes reads rws writes wws p.1 Hne Hcap)
      as (v & Hv & Hveq).
    exists (p.2 * v)%Q. rewrite Hv. split; [done|]. by rewrite Hveq. }
  rewrite Hvs. simpl. eexists. split; [reflexivity|]. by apply Qsum_Qeq.
Qed.

(** and [ExplicitStrategy.load] of [quorums.py] is the worst-case load at
    the mean read fraction. *)
Lemma ExplicitStrategy_load_worst_case_at_mean
    nodes reads rws writes wws read_fraction d :
  nodes ≠ ∅ → capacities_nonzero nodes →
  _canonicalize_distribution read_fraction = Ok d →
  ∃ v, ExplicitStrategy_load
         (ExplicitStrategy_init nodes reads rws writes wws) read_fraction
       = Ok v ∧
       (v == worst_case_load_at_mean
               (Strategy_init nodes reads rws writes wws) d)%Q.
Proof.
  intros Hne Hcap Hd. unfold ExplicitStrategy_load. rewrite Hd. simpl.
  unfold worst_case_load_at_mean, max_node_load.
  apply (py_max_node_loads nodes
    (λ node, ExplicitStrategy_node_load
               (ExplicitStrategy_init nodes reads rws writes wws)
               (unweighted_load reads rws) (unweighted_load writes wws)
               (mean_read_fraction d) (node_x node))
    (λ node, node_load (Strategy_init nodes reads rws writes wws)
               (node_x node) (mean_read_fraction d))); [done|].
  intros n Hn. by apply node_load_ExplicitStrategy_init.
Qed.

End Strategies.

(** ** The properties on concrete systems *)

Example Node_init_default :
  Node_init 0 "a" None None None = Ok node_a.
Proof. reflexivity. Qed.

Lemma is_quorum_iff_superset_witness :
  wf majority_abc = true ∧
  ∃ qs, quorums majority_abc = Ok qs ∧
        ∀ xs, is_quorum majority_abc xs = true ↔ ∃ q, q ∈ qs ∧ q ⊆ xs.
Proof.
  split; [reflexivity|]. apply (is_quorum_iff_superset majority_abc).
  reflexivity.
Defined.

Lemma single_side_quorums_intersect_witness :
  wf majority_abc = true ∧
  (∃ sys rqs wqs,
     QuorumSystem_init (Some majority_abc) None = Ok sys ∧
     reads sys = majority_abc ∧ dual majority_abc = Ok (writes sys) ∧
     read_quorums sys = Ok rqs ∧ write_quorums sys = Ok wqs ∧
     ∀ r w, r ∈ rqs → w ∈ wqs → r ∩ w ≠ ∅) ∧
  (∃ sys rqs wqs,
     QuorumSystem_init None (Some majority_abc) = Ok sys ∧
     writes sys = majority_abc ∧ dual majority_abc = Ok (reads sys) ∧
     read_quorums sys = Ok rqs ∧ write_quorums sys = Ok wqs ∧
     ∀ r w, r ∈ rqs → w ∈ wqs → r ∩ w ≠ ∅).
Proof.
  split; [reflexivity|]. apply (single_side_quorums_intersect majority_abc).
  reflexivity.
Defined.

Lemma dual_dual_quorums_witness :
  wf majority_abc = true ∧
  ∃ d dd qs qs',
    dual majority_abc = Ok d ∧ dual_shape majority_abc d ∧
    dual d = Ok dd ∧ dual_shape d dd ∧
    quorums majority_abc = Ok qs ∧ quorums dd = Ok qs' ∧
    list_to_set qs =@{gset (gset string)} list_to_set qs'.
Proof.
  split; [reflexivity|]. apply (dual_dual_quorums majority_abc). reflexivity.
Defined.

(** C5 does not hold as stated: two objects built by [Node('a')] carry the
    same [x], are not equal, and are two elements of [nodes()]. *)
Lemma nodes_same_x_counterexample :
  node_x node_a = node_x node_a' ∧
  Node_eq node_a node_a' = false ∧
  ∃ ns, nodes (Or [Leaf node_a; Leaf node_a']) = Ok ns ∧ size ns = 2%nat.
Proof.
  split; [reflexivity|]. split; [reflexivity|].
  exists {[ node_a; node_a' ]}. split; [reflexivity|].
  rewrite size_union, !size_singleton; [done|]. set_solver.
Qed.

Lemma nodes_by_object_identity_witness :
  wf (Or [Leaf node_a; Leaf node_a']) = true ∧
  node_a ∈ leaves (Or [Leaf node_a; Leaf node_a']) ∧
  node_a' ∈ leaves (Or [Leaf node_a; Leaf node_a']) ∧
  node_id node_a ≠ node_id node_a' ∧
  node_x node_a = node_x node_a' ∧
  Node_eq node_a node_a' = false ∧
  ∃ ns, nodes (Or [Leaf node_a; Leaf node_a']) = Ok ns ∧
        (∀ n, n ∈ ns ↔ n ∈ leaves (Or [Leaf node_a; Leaf node_a'])) ∧
        node_a ∈ ns ∧ node_a' ∈ ns ∧ node_a ≠ node_a' ∧ (2 ≤ size ns)%nat ∧
        identities {[ node_a; node_a' ]} = {[ node_x node_a ]}.
Proof.
  assert (node_a ∈ leaves (Or [Leaf node_a; Leaf node_a'])) as Ha
    by (simpl; left).
  assert (node_a' ∈ leaves (Or [Leaf node_a; Leaf node_a'])) as Ha'
    by (simpl; right; left).
  assert (node_id node_a ≠ node_id node_a') as Hid by (simpl; lia).
  split; [reflexivity|]. split; [exact Ha|]. split; [exact Ha'|].
  split; [exact Hid|]. split; [reflexivity|].
  apply (nodes_by_object_identity _ node_a node_a');
    [reflexivity | exact Ha | exact Ha' | exact Hid | reflexivity].
Defined.

Lemma quorums_nonempty_subset_nodes_witness :
  wf majority_abc = true ∧
  ∃ qs ns, quorums majority_abc = Ok qs ∧ nodes majority_abc = Ok ns ∧
           ∀ q, q ∈ qs → q ≠ ∅ ∧ q ⊆ identities ns.
Proof.
  split; [reflexivity|].
  apply (quorums_nonempty_subset_nodes majority_abc). reflexivity.
Defined.

Lemma choose_same_quorums_witness :
  1 ≤ 3 ≤ len [Leaf node_a; Leaf node_b; Leaf node_c] ∧
  forallb wf [Leaf node_a; Leaf node_b; Leaf node_c] = true ∧
  ∃ e qs qs',
    choose 3 [Leaf node_a; Leaf node_b; Leaf node_c] = Ok e ∧
    e = (if bool_decide (3 = 1) then Or [Leaf node_a; Leaf node_b; Leaf node_c]
         else if bool_decide (3 = len [Leaf node_a; Leaf node_b; Leaf node_c])
              then And [Leaf node_a; Leaf node_b; Leaf node_c]
              else Choose 3 [Leaf node_a; Leaf node_b; Leaf node_c]) ∧
    quorums e = Ok qs ∧
    quorums (Choose 3 [Leaf node_a; Leaf node_b; Leaf node_c]) = Ok qs' ∧
    qs = qs' ∧ list_to_set qs =@{gset (gset string)} list_to_set qs'.
Proof.
  assert (1 ≤ 3 ≤ len [Leaf node_a; Leaf node_b; Leaf node_c]) as Hk
    by (unfold len; simpl; lia).
  split; [exact Hk|]. split; [reflexivity|].
  apply (choose_same_quorums 3 [Leaf node_a; Leaf node_b; Leaf node_c]);
    [exact Hk | reflexivity].
Defined.

(** ** Distributions *)

(** What the mapping form is checked for: nothing but its size and its
    weights. *)
Lemma canonicalize_dict_raises (d : fdict) :
  canonicalize_dict d = Raise ValueError ↔
  d = [] ∨ Exists (λ p, (p.2 < 0)%Q) d ∨ (Qsum d.*2 == 0)%Q.
Proof.
  unfold canonicalize_dict.
  assert (existsb (λ weight, Qltb weight 0) d.*2 = true
          ↔ Exists (λ p, (p.2 < 0)%Q) d) as Hneg.
  { induction d as [|p d IH]; simpl.
    - split; [done | by inversion 1].
    - by rewrite orb_true_iff, Exists_cons, IH, Qltb_lt. }
  case_bool_decide as Hlen; [rewrite len_0 in Hlen; tauto|].
  rewrite len_0 in Hlen.
  destruct (existsb _ _) eqn:Hex; [tauto|].
  destruct (Qeq_bool _ _) eqn:Hz.
  - apply Qeq_bool_iff in Hz. tauto.
  - split; [done|]. intros [?|[Hn|Hz']]; [done| |].
    + apply Hneg in Hn. congruence.
    + apply Qeq_bool_iff in Hz'. congruence.
Qed.

Lemma canonicalize_scalar_raises (f : Q) :
  _canonicalize_distribution (DFloat f) = Raise ValueError ↔
  (f < 0)%Q ∨ (1 < f)%Q.
Proof.
  simpl. rewrite <-!Qltb_lt.
  destruct (Qltb f 0), (Qltb 1 f); simpl; intuition congruence.
Qed.

(** C6. The mapping and the pair-sequence forms are never checked against
    the range: [{2.0: 1.0}] and [[(2.0, 1.0)]] hold the read fraction 2,
    outside [0, 1], and are canonicalized without error, where the scalar
    forms [2.0] and [2] raise [ValueError]. *)
Theorem canonicalize_mapping_out_of_range :
  Qltb 1 2 = true ∧
  _canonicalize_distribution (DDict [(2, 1)]%Q) = Ok [(2, 1)]%Q ∧
  _canonicalize_distribution (DList [(2, 1)]%Q) = Ok [(2, 1)]%Q ∧
  _canonicalize_distribution (DFloat 2) = Raise ValueError ∧
  _canonicalize_distribution (DInt 2) = Raise ValueError.
Proof. repeat split. Qed.

(** ** Loads on a concrete strategy *)

(** C4. On the strategy that reads from [a] alone and writes to [b] alone,
    under the distribution [{0.0: 0.5, 1.0: 0.5}], the expected worst-case
    load is 1 and the worst-case load at the mean read fraction is 1/2:
    [Strategy.load] of [strategy.py] returns the former and
    [ExplicitStrategy.load] of [quorums.py] the latter. *)
Theorem load_at_mean_divergence :
  (expected_worst_case_load split_strategy all_or_nothing == 1)%Q ∧
  (worst_case_load_at_mean split_strategy all_or_nothing == 1 # 2)%Q ∧
  (∃ v, Strategy_load split_strategy all_or_nothing = Ok v ∧ (v == 1)%Q) ∧
  (∃ v, ExplicitStrategy_load split_explicit_strategy (DDict all_or_nothing)
        = Ok v ∧ (v == 1 # 2)%Q).
Proof.
  split; [by vm_compute|]. split; [by vm_compute|]. split.
  - eexists. split; [vm_compute; reflexivity | by vm_compute].
  - eexists. split; [vm_compute; reflexivity | by vm_compute].
Qed.

(** * Further properties *)

(** ** Predicates over lists *)

Section MoreBoolLists.
Context {A B : Type}.
Implicit Types (p q : A → bool).

Lemma existsb_impl p q (l : list A) :
  Forall (λ a, p a = true → q a = true) l →
  existsb p l = true → existsb q l = true.
Proof.
  induction 1 as [|a l Ha _ IH]; simpl; [done|].
  rewrite !orb_true_iff. intuition.
Qed.

Lemma forallb_impl p q (l : list A) :
  Forall (λ a, p a = true → q a = true) l →
  forallb p l = true → forallb q l = true.
Proof.
  induction 1 as [|a l Ha _ IH]; simpl; [done|].
  rewrite !andb_true_iff. intuition.
Qed.

Lemma count_impl p q (l : list A) :
  Forall (λ a, p a = true → q a = true) l →
  (sum_list_with (λ a, if p a then 1 else 0) l
   ≤ sum_list_with (λ a, if q a then 1 else 0) l)%nat.
Proof.
  induction 1 as [|a l Ha _ IH]; simpl; [done|].
  destruct (p a), (q a); try lia; by specialize (Ha eq_refl).
Qed.

Lemma forallb_negb_existsb p (r : B → bool) (l : list A) (l' : list B) :
  Forall2 (λ a b, r b = negb (p a)) l l' →
  forallb r l' = negb (existsb p l).
Proof.
  induction 1 as [|a b l l' Hab _ IH]; simpl; [done|].
  by rewrite Hab, IH, negb_orb.
Qed.

Lemma existsb_negb_forallb p (r : B → bool) (l : list A) (l' : list B) :
  Forall2 (λ a b, r b = negb (p a)) l l' →
  existsb r l' = negb (forallb p l).
Proof.
  induction 1 as [|a b l l' Hab _ IH]; simpl; [done|].
  by rewrite Hab, IH, negb_andb.
Qed.

Lemma count_negb p (r : B → bool) (l : list A) (l' : list B) :
  Forall2 (λ a b, r b = negb (p a)) l l' →
  (sum_list_with (λ b, if r b then 1 else 0) l'
   + sum_list_with (λ a, if p a then 1 else 0) l = length l)%nat.
Proof.
  induction 1 as [|a b l l' Hab _ IH]; simpl; [done|].
  rewrite Hab. destruct (p a); simpl; lia.
Qed.

Lemma count_app p (l1 l2 : list A) :
  sum_list_with (λ a, if p a then 1 else 0)%nat (l1 ++ l2)
  = (sum_list_with (λ a, if p a then 1 else 0) l1
     + sum_list_with (λ a, if p a then 1 else 0) l2)%nat.
Proof. induction l1 as [|a l1 IH]; simpl; [done|]. rewrite IH. lia. Qed.

Lemma count_le_length p (l : list A) :
  (sum_list_with (λ a, if p a then 1 else 0) l ≤ length l)%nat.
Proof. induction l as [|a l IH]; simpl; [done|]. destruct (p a); lia. Qed.

End MoreBoolLists.

Lemma Forall2_and_l {A B} (P : A → B → Prop) (Q : A → Prop) l k :
  Forall2 P l k → Forall Q l → Forall2 (λ x y, P x y ∧ Q x) l k.
Proof.
  induction 1; inversion 1; subst; constructor; auto.
Qed.

(** ** Quorums, duals and the algebra of expressions *)

Section MoreExpressions.
Context {T : Type} `{Countable T}.
Implicit Types (e d lhs rhs : Expr (T:=T)) (es ds : list (Expr (T:=T))).
Implicit Types (q xs ys U : gset T) (qs : list (gset T)) (k : Z).

(** X1. [is_quorum] is monotone: a superset of a quorum is a quorum. This
    holds of every expression tree. *)
Theorem is_quorum_mono e xs ys :
  xs ⊆ ys → is_quorum e xs = true → is_quorum e ys = true.
Proof.
  intros Hsub.
  induction e as [n|es IH|es IH|k es IH] using Expr_ind'; simpl.
  - rewrite !bool_decide_eq_true. set_solver.
  - by apply existsb_impl.
  - by apply forallb_impl.
  - rewrite !bool_decide_eq_true, !py_sum_indicator.
    pose proof (count_impl (λ e, is_quorum e xs) (λ e, is_quorum e ys) es IH).
    lia.
Qed.

Lemma leaves_children_in (U : gset T) es :
  (∀ n, n ∈ concat (leaves <$> es) → node_x n ∈ U) →
  Forall (λ e, ∀ n, n ∈ leaves e → node_x n ∈ U) es.
Proof.
  intros HU. apply Forall_forall. intros e He n Hn. apply HU.
  apply elem_of_concat. exists (leaves e). split; [|done].
  by apply list_elem_of_fmap_2.
Qed.

Lemma leaves_children_eq es ds :
  Forall2 (λ e d, leaves d = leaves e) es ds →
  concat (leaves <$> ds) = concat (leaves <$> es).
Proof. induction 1 as [|e d es ds He _ IH]; csimpl; [done|]. by rewrite He, IH. Qed.

(** The dual keeps the leaves, and it is the Boolean dual: over a universe
    [U] that holds every identity of the expression, a set is a quorum of
    the dual exactly when its complement is not a quorum of the
    expression. *)
Lemma dual_complement e :
  wf e = true →
  ∃ d, dual e = Ok d ∧ wf d = true ∧ dual d = Ok e ∧
       (leaves d = leaves e ∧
        ∀ U xs, (∀ n, n ∈ leaves e → node_x n ∈ U) →
                is_quorum d xs = negb (is_quorum e (U ∖ xs))).
Proof.
  induction e as [n|es IH|es IH|k es IH] using Expr_ind'.
  - intros _. exists (Leaf n). repeat split. simpl. intros U xs HU.
    assert (node_x n ∈ U) by (apply HU; by left).
    destruct (decide (node_x n ∈ xs)).
    + rewrite bool_decide_eq_true_2, bool_decide_eq_false_2; set_solver.
    + rewrite bool_decide_eq_false_2, bool_decide_eq_true_2; set_solver.
  - intros [Hne Hwf]%wf_Or.
    destruct (dual_children _ _ IH Hwf) as (ds & H1 & H2 & H3 & H4 & H5).
    assert (ds ≠ []) as Hds by (intros ->; by destruct es).
    exists (And ds). split; [|split; [|split; [|split]]].
    + simpl. erewrite bind_Ok by exact H1. by apply And_init_Ok.
    + by apply wf_And.
    + simpl. erewrite bind_Ok by exact H2. by apply Or_init_Ok.
    + simpl. apply leaves_children_eq.
      eapply Forall2_impl; [exact H5|]. by intros ?? [? ?].
    + intros U xs HU. simpl. apply forallb_negb_existsb.
      eapply Forall2_impl;
        [exact (Forall2_and_l _ _ _ _ H5 (leaves_children_in U es HU))|].
      simpl. intros e d [[_ Hd] He]. by apply Hd.
  - intros [Hne Hwf]%wf_And.
    destruct (dual_children _ _ IH Hwf) as (ds & H1 & H2 & H3 & H4 & H5).
    assert (ds ≠ []) as Hds by (intros ->; by destruct es).
    exists (Or ds). split; [|split; [|split; [|split]]].
    + simpl. erewrite bind_Ok by exact H1. by apply Or_init_Ok.
    + by apply wf_Or.
    + simpl. erewrite bind_Ok by exact H2. by apply And_init_Ok.
    + simpl. apply leaves_children_eq.
      eapply Forall2_impl; [exact H5|]. by intros ?? [? ?].
    + intros U xs HU. simpl. apply existsb_negb_forallb.
      eapply Forall2_impl;
        [exact (Forall2_and_l _ _ _ _ H5 (leaves_children_in U es HU))|].
      simpl. intros e d [[_ Hd] He]. by apply Hd.
  - intros [Hk Hwf]%wf_Choose.
    destruct (dual_children _ _ IH Hwf) as (ds & H1 & H2 & H3 & H4 & H5).
    assert (len ds = len es) as Hlen by (unfold len; lia).
    exists (Choose (len es - k + 1) ds). split; [|split; [|split; [|split]]].
    + simpl. erewrite bind_Ok by exact H1. apply Choose_init_Ok. lia.
    + apply wf_Choose. split; [lia|done].
    + simpl. erewrite bind_Ok by exact H2.
      replace (len ds - (len es - k + 1) + 1) with k by lia.
      by apply Choose_init_Ok.
    + simpl. apply leaves_children_eq.
      eapply Forall2_impl; [exact H5|]. by intros ?? [? ?].
    + intros U xs HU. simpl. rewrite !py_sum_indicator.
      pose proof (count_negb (λ e, is_quorum e (U ∖ xs))
                    (λ d, is_quorum d xs) es ds) as Hcount.
      unfold len in *.
      assert (Forall2 (λ e d, is_quorum d xs
                               = negb (is_quorum e (U ∖ xs))) es ds) as HF.
      { eapply Forall2_impl;
          [exact (Forall2_and_l _ _ _ _ H5 (leaves_children_in U es HU))|].
        simpl. intros e d [[_ Hd] He]. by apply Hd. }
      apply Hcount in HF.
      destruct (bool_decide (_ >= k)) eqn:Hb; simpl.
      * apply bool_decide_eq_true in Hb. apply bool_decide_eq_false. lia.
      * apply bool_decide_eq_false in Hb. apply bool_decide_eq_true. lia.
Qed.

(** X2. [dual] is the Boolean dual (the source leaves this to be proved):
    over a universe [U] that holds every identity of the expression, a set
    is a quorum of [e.dual()] exactly when its complement in [U] is not a
    quorum of [e]. [dual] never raises on a constructed expression. *)
Theorem dual_is_boolean_dual e (U xs : gset T) :
  wf e = true → (∀ n, n ∈ leaves e → node_x n ∈ U) →
  ∃ d, dual e = Ok d ∧ is_quorum d xs = negb (is_quorum e (U ∖ xs)).
Proof.
  intros (d & Hd & _ & _ & _ & Hc)%dual_complement HU.
  exists d. split; [done|]. by apply Hc.
Qed.

(** X3. [dual] keeps the nodes: [e.dual().nodes()] is [e.nodes()], and the
    dual is again an expression that the constructors accept. *)
Theorem dual_nodes e :
  wf e = true →
  ∃ d ns, dual e = Ok d ∧ wf d = true ∧ nodes e = Ok ns ∧ nodes d = Ok ns.
Proof.
  intros Hwf.
  destruct (dual_complement e Hwf) as (d & Hd & Hwfd & _ & Hl & _).
  exists d, (list_to_set (leaves e)). repeat split; try done.
  - by apply nodes_leaves.
  - rewrite <-Hl. by apply nodes_leaves.
Qed.

(** The quorums of the dual are the hitting sets: a set is a quorum of
    [e.dual()] exactly when it meets every set that [e.quorums()]
    enumerates. *)
Lemma dual_quorum_iff_hits_all e xs :
  wf e = true →
  ∃ d qs, dual e = Ok d ∧ quorums e = Ok qs ∧
          (is_quorum d xs = true ↔ ∀ q, q ∈ qs → q ∩ xs ≠ ∅).
Proof.
  intros Hwf.
  destruct (dual_complement e Hwf) as (d & Hd & _ & _ & _ & Hc).
  destruct (is_quorum_covers e Hwf) as (qs & Hqs & Hcov).
  destruct (quorums_nonempty_within e Hwf) as (qs' & Hqs' & Hin).
  assert (qs' = qs) as -> by congruence.
  exists d, qs. split; [done|]. split; [done|].
  set (U := identities (list_to_set (leaves e))).
  rewrite (Hc U xs).
  2:{ intros n Hn. unfold U, identities. set_solver. }
  rewrite negb_true_iff, <-not_true_iff_false, Hcov. unfold covers. split.
  - intros Hno q Hq Hempty. apply Hno. exists q. split; [done|].
    destruct (Hin q Hq) as [_ Hsub]. fold U in Hsub. set_solver.
  - intros Hall (q & Hq & Hsub). apply (Hall q Hq). set_solver.
Qed.

(** *** The flattening combinators *)

Lemma _and_flat lhs rhs :
  _and lhs rhs = And_init (flat_and lhs ++ flat_and rhs).
Proof. by destruct lhs, rhs. Qed.

Lemma _or_flat lhs rhs :
  _or lhs rhs = Or_init (flat_or lhs ++ flat_or rhs).
Proof. by destruct lhs, rhs. Qed.

Lemma flat_and_wf e :
  wf e = true → flat_and e ≠ [] ∧ forallb wf (flat_and e) = true.
Proof.
  destruct e as [n|es|es|k es]; intros Hwf;
    try (split; [done|]; cbn [flat_and forallb]; by rewrite Hwf).
  by apply wf_And.
Qed.

Lemma flat_or_wf e :
  wf e = true → flat_or e ≠ [] ∧ forallb wf (flat_or e) = true.
Proof.
  destruct e as [n|es|es|k es]; intros Hwf;
    try (split; [done|]; cbn [flat_or forallb]; by rewrite Hwf).
  by apply wf_Or.
Qed.

Lemma is_quorum_flat_and e xs :
  forallb (λ e, is_quorum e xs) (flat_and e) = is_quorum e xs.
Proof. destruct e; simpl; try done; apply andb_true_r. Qed.

Lemma is_quorum_flat_or e xs :
  existsb (λ e, is_quorum e xs) (flat_or e) = is_quorum e xs.
Proof. destruct e; simpl; try done; apply orb_false_r. Qed.

Lemma app_not_nil {A} (l1 l2 : list A) : l1 ≠ [] → l1 ++ l2 ≠ [].
Proof. by destruct l1. Qed.

(** X5. [lhs * rhs] never raises on constructed operands, is again a
    constructed expression, and a set is a quorum of it exactly when it is
    a quorum of both operands. *)
Theorem _and_is_quorum lhs rhs :
  wf lhs = true → wf rhs = true →
  ∃ e, _and lhs rhs = Ok e ∧ wf e = true ∧
       ∀ xs, is_quorum e xs = is_quorum lhs xs && is_quorum rhs xs.
Proof.
  intros [Hl Hwl]%flat_and_wf [Hr Hwr]%flat_and_wf.
  exists (And (flat_and lhs ++ flat_and rhs)). rewrite _and_flat.
  split; [by apply And_init_Ok, app_not_nil|]. split.
  - apply wf_And. split; [by apply app_not_nil|].
    by rewrite forallb_app, Hwl, Hwr.
  - intros xs. simpl. by rewrite forallb_app, !is_quorum_flat_and.
Qed.

(** X6. [lhs + rhs] never raises on constructed operands, is again a
    constructed expression, and a set is a quorum of it exactly when it is
    a quorum of one of the operands. *)
Theorem _or_is_quorum lhs rhs :
  wf lhs = true → wf rhs = true →
  ∃ e, _or lhs rhs = Ok e ∧ wf e = true ∧
       ∀ xs, is_quorum e xs = is_quorum lhs xs || is_quorum rhs xs.
Proof.
  intros [Hl Hwl]%flat_or_wf [Hr Hwr]%flat_or_wf.
  exists (Or (flat_or lhs ++ flat_or rhs)). rewrite _or_flat.
  split; [by apply Or_init_Ok, app_not_nil|]. split.
  - apply wf_Or. split; [by apply app_not_nil|].
    by rewrite forallb_app, Hwl, Hwr.
  - intros xs. simpl. by rewrite existsb_app, !is_quorum_flat_or.
Qed.

(** X7. Flattening makes [*] associative on the nose: [(a * b) * c] and
    [a * (b * c)] are the same expression, the [And] of the operands of
    [a], [b] and [c] in order. *)
Theorem _and_assoc (a b c : Expr (T:=T)) :
  wf a = true → wf b = true → wf c = true →
  (ab ← _and a b; _and ab c)
    = Ok (And (flat_and a ++ flat_and b ++ flat_and c)) ∧
  (bc ← _and b c; _and a bc)
    = Ok (And (flat_and a ++ flat_and b ++ flat_and c)).
Proof.
  intros [Ha _]%flat_and_wf [Hb _]%flat_and_wf [Hc _]%flat_and_wf.
  rewrite (_and_flat a b), (_and_flat b c).
  rewrite !And_init_Ok by (by apply app_not_nil).
  unfold mbind, result_bind. rewrite !_and_flat. cbn [flat_and].
  rewrite <-(assoc_L (++)).
  rewrite And_init_Ok by (by apply app_not_nil). done.
Qed.

(** X8. Flattening makes [+] associative on the nose: [(a + b) + c] and
    [a + (b + c)] are the same expression, the [Or] of the operands of
    [a], [b] and [c] in order. *)
Theorem _or_assoc (a b c : Expr (T:=T)) :
  wf a = true → wf b = true → wf c = true →
  (ab ← _or a b; _or ab c)
    = Ok (Or (flat_or a ++ flat_or b ++ flat_or c)) ∧
  (bc ← _or b c; _or a bc)
    = Ok (Or (flat_or a ++ flat_or b ++ flat_or c)).
Proof.
  intros [Ha _]%flat_or_wf [Hb _]%flat_or_wf [Hc _]%flat_or_wf.
  rewrite (_or_flat a b), (_or_flat b c).
  rewrite !Or_init_Ok by (by apply app_not_nil).
  unfold mbind, result_bind. rewrite !_or_flat. cbn [flat_or].
  rewrite <-(assoc_L (++)).
  rewrite Or_init_Ok by (by apply app_not_nil). done.
Qed.

Lemma quorums_flat_or e :
  wf e = true →
  ∃ qss, Forall2 (λ e qs, quorums e = Ok qs) (flat_or e) qss
         ∧ quorums e = Ok (concat qss).
Proof.
  intros Hwf. destruct (flat_or_wf e Hwf) as [_ Hch].
  destruct (quorums_children _ Hch) as [qss Hqss]. exists qss.
  split; [done|]. destruct e as [n|es|es|k es];
    try (simpl in Hqss; inversion Hqss as [|? qs ? ? Hq Hnil]; subst;
         inversion Hnil; subst; simpl; by rewrite app_nil_r).
  by apply quorums_Or.
Qed.

Lemma quorums_flat_and e :
  wf e = true →
  ∃ qss, Forall2 (λ e qs, quorums e = Ok qs) (flat_and e) qss
         ∧ quorums e = Ok (and_qs qss).
Proof.
  intros Hwf. destruct (flat_and_wf e Hwf) as [Hne Hch].
  destruct (quorums_children _ Hch) as [qss Hqss]. exists qss.
  split; [done|]. destruct e as [n|es|es|k es];
    try (simpl in Hqss; inversion Hqss as [|? qs ? ? Hq Hnil]; subst;
         inversion Hnil; subst; by rewrite and_qs_singleton).
  by apply quorums_And.
Qed.

(** X9. [(lhs + rhs).quorums()] enumerates the quorums of [lhs] and then
    those of [rhs]. *)
Theorem _or_quorums lhs rhs :
  wf lhs = true → wf rhs = true →
  ∃ e ql qr, _or lhs rhs = Ok e ∧ quorums lhs = Ok ql ∧ quorums rhs = Ok qr
             ∧ quorums e = Ok (ql ++ qr).
Proof.
  intros Hl Hr.
  destruct (quorums_flat_or lhs Hl) as (qssl & Hqssl & Hql).
  destruct (quorums_flat_or rhs Hr) as (qssr & Hqssr & Hqr).
  destruct (flat_or_wf lhs Hl) as [Hne _].
  exists (Or (flat_or lhs ++ flat_or rhs)), (concat qssl), (concat qssr).
  rewrite _or_flat. split; [by apply Or_init_Ok, app_not_nil|].
  repeat split; try done.
  rewrite <-concat_app. apply quorums_Or. by apply Forall2_app.
Qed.

Lemma elem_of_and_qs_app q (qss1 qss2 : list (list (gset T))) :
  q ∈ and_qs (qss1 ++ qss2) ↔
  ∃ q1 q2, q1 ∈ and_qs qss1 ∧ q2 ∈ and_qs qss2 ∧ q = q1 ∪ q2.
Proof.
  rewrite elem_of_and_qs. setoid_rewrite elem_of_and_qs. split.
  - intros (c & Hc & ->).
    apply Forall2_app_inv_r in Hc as (c1 & c2 & H1 & H2 & ->).
    exists (⋃ c1), (⋃ c2). rewrite union_list_app_L. eauto 10.
  - intros (q1 & q2 & (c1 & H1 & ->) & (c2 & H2 & ->) & ->).
    exists (c1 ++ c2). rewrite union_list_app_L.
    split; [by apply Forall2_app|done].
Qed.

(** X10. The sets that [(lhs * rhs).quorums()] enumerates are the unions of
    a quorum of [lhs] with a quorum of [rhs]. *)
Theorem _and_quorums lhs rhs :
  wf lhs = true → wf rhs = true →
  ∃ e ql qr qs,
    _and lhs rhs = Ok e ∧ quorums lhs = Ok ql ∧ quorums rhs = Ok qr ∧
    quorums e = Ok qs ∧
    ∀ q, q ∈ qs ↔ ∃ q1 q2, q1 ∈ ql ∧ q2 ∈ qr ∧ q = q1 ∪ q2.
Proof.
  intros Hl Hr.
  destruct (quorums_flat_and lhs Hl) as (qssl & Hqssl & Hql).
  destruct (quorums_flat_and rhs Hr) as (qssr & Hqssr & Hqr).
  destruct (flat_and_wf lhs Hl) as [Hne _].
  exists (And (flat_and lhs ++ flat_and rhs)), (and_qs qssl), (and_qs qssr).
  exists (and_qs (qssl ++ qssr)).
  rewrite _and_flat. split; [by apply And_init_Ok, app_not_nil|].
  repeat split; try done.
  - apply quorums_And; [by apply app_not_nil|]. by apply Forall2_app.
  - by apply elem_of_and_qs_app.
  - by apply elem_of_and_qs_app.
Qed.

(** *** [choose] and [majority] *)

Lemma existsb_count {A} (p : A → bool) (l : list A) :
  existsb p l = true ↔ (1 ≤ sum_list_with (λ a, if p a then 1 else 0) l)%nat.
Proof.
  induction l as [|a l IH]; simpl; [split; [done|lia]|].
  rewrite orb_true_iff, IH.
  destruct (p a); intuition (try discriminate; lia).
Qed.

Lemma forallb_count {A} (p : A → bool) (l : list A) :
  forallb p l = true
  ↔ (length l ≤ sum_list_with (λ a, if p a then 1 else 0) l)%nat.
Proof.
  induction l as [|a l IH]; simpl; [done|].
  pose proof (count_le_length p l).
  rewrite andb_true_iff, IH.
  destruct (p a); intuition (try discriminate; lia).
Qed.

Lemma choose_cases k es :
  (1 ≤ k ≤ len es ∧ is_Ok (choose k es)) ∨
  (¬ (1 ≤ k ≤ len es) ∧ choose k es = Raise ValueError).
Proof.
  unfold choose, Or_init, And_init, Choose_init, is_Ok.
  assert (0 ≤ len es) by (unfold len; lia).
  repeat case_bool_decide; simpl; subst;
    ((left; split; [lia | by eexists]) || (right; split; [lia | done])).
Qed.

(** X11. [choose(k, es)] accepts exactly what [Choose(k, es)] accepts: it
    raises [ValueError] when [k < 1] or [k > len(es)], also through the
    [Or] and [And] that it collapses to, and succeeds otherwise. *)
Theorem choose_validates k es :
  (choose k es = Raise ValueError ↔ k < 1 ∨ k > len es) ∧
  (is_Ok (choose k es) ↔ 1 ≤ k ≤ len es).
Proof.
  destruct (choose_cases k es) as [[Hk [e He]]|[Hk He]]; rewrite He;
    unfold is_Ok.
  - split; split.
    + discriminate.
    + lia.
    + done.
    + eauto.
  - split; split.
    + lia.
    + done.
    + by intros [? [=]].
    + lia.
Qed.

Lemma choose_is_quorum_count k es :
  1 ≤ k ≤ len es →
  ∃ e, choose k es = Ok e ∧
       ∀ xs, is_quorum e xs = true ↔ k ≤ Z.of_nat (quorum_count es xs).
Proof.
  intros Hk. unfold choose, quorum_count.
  assert (es ≠ []) as Hne.
  { intros ->. unfold len in Hk. simpl in Hk. lia. }
  repeat case_bool_decide; subst.
  - exists (Or es). split; [by apply Or_init_Ok|]. intros xs. simpl.
    rewrite existsb_count. lia.
  - exists (And es). split; [by apply And_init_Ok|]. intros xs. simpl.
    rewrite forallb_count. unfold len. lia.
  - exists (Choose k es). split; [by apply Choose_init_Ok|]. intros xs.
    simpl. rewrite bool_decide_eq_true, py_sum_indicator. lia.
Qed.

(** X12. A set is a quorum of [choose(k, es)] exactly when it is a quorum
    of at least [k] of the [es], whether [choose] collapses to [Or], to
    [And] or not at all. *)
Theorem choose_is_quorum k es :
  1 ≤ k ≤ len es →
  ∃ e, choose k es = Ok e ∧
       ∀ xs, is_quorum e xs = true ↔ k ≤ Z.of_nat (quorum_count es xs).
Proof. apply choose_is_quorum_count. Qed.

Lemma majority_threshold (n : Z) : 1 ≤ n → 1 ≤ n `div` 2 + 1 ≤ n.
Proof. intros. Z.div_mod_to_equations. lia. Qed.

Lemma majority_is_quorum_count es :
  es ≠ [] →
  majority (T:=T) [] = Raise ValueError ∧
  ∃ e, majority es = Ok e ∧
       ∀ xs, is_quorum e xs = true
             ↔ len es < 2 * Z.of_nat (quorum_count es xs).
Proof.
  intros Hne. split; [done|].
  assert (1 ≤ len es) as Hlen.
  { unfold len. destruct es; [done|]. simpl. lia. }
  destruct (choose_is_quorum_count (len es `div` 2 + 1) es) as (e & He & Hq).
  { by apply majority_threshold. }
  exists e. split; [done|]. intros xs. rewrite Hq.
  Z.div_mod_to_equations. lia.
Qed.

(** X13. [majority(es)] raises [ValueError] on the empty list and succeeds
    on every other; a set is a quorum of it exactly when it is a quorum of
    more than half of the [es]. *)
Theorem majority_is_quorum es :
  es ≠ [] →
  majority (T:=T) [] = Raise ValueError ∧
  ∃ e, majority es = Ok e ∧
       ∀ xs, is_quorum e xs = true
             ↔ len es < 2 * Z.of_nat (quorum_count es xs).
Proof. apply majority_is_quorum_count. Qed.

Lemma Forall2_diag {A} (R : A → A → Prop) (l : list A) :
  Forall (λ a, R a a) l → Forall2 R l l.
Proof. induction 1; constructor; auto. Qed.

(** X14. Any two quorums of a majority of nodes meet: no two disjoint sets
    are both quorums of [majority([n1, ..., nk])]. *)
Theorem majority_quorums_intersect (ns : list (Node (T:=T))) :
  ns ≠ [] →
  ∃ e, majority (Leaf <$> ns) = Ok e ∧
       ∀ xs ys, is_quorum e xs = true → is_quorum e ys = true →
                xs ∩ ys ≠ ∅.
Proof.
  intros Hne.
  destruct (majority_is_quorum_count (Leaf <$> ns)) as (_ & e & He & Hq).
  { by destruct ns. }
  exists e. split; [done|]. intros xs ys Hx%Hq Hy%Hq Hempty.
  pose proof (count_exclusive (λ e, is_quorum e xs) (λ e, is_quorum e ys)
                (Leaf <$> ns) (Leaf <$> ns)) as Hcount.
  unfold quorum_count, len in *.
  assert (Forall2 (λ e1 e2 : Expr (T:=T), is_quorum e1 xs = true →
                           is_quorum e2 ys = true → False)
            (Leaf <$> ns) (Leaf <$> ns)) as HF.
  { apply Forall2_diag, Forall_fmap, Forall_forall. intros n _. simpl.
    rewrite !bool_decide_eq_true. set_solver. }
  apply Hcount in HF. lia.
Qed.

(** *** Building a [QuorumSystem] from both sides *)

Lemma elem_of_pairs {A B} (l : list A) (k : list B) a b :
  (a, b) ∈ (x ← l; y ← k; [(x, y)]) ↔ a ∈ l ∧ b ∈ k.
Proof.
  rewrite list_elem_of_bind. setoid_rewrite list_elem_of_bind.
  setoid_rewrite list_elem_of_singleton. naive_solver.
Qed.

(** X15. Given reads and writes whose enumerations end, the constructor
    succeeds exactly when every read quorum meets every write quorum, and
    fails its assertion otherwise; given neither, it raises [ValueError]. *)
Theorem QuorumSystem_init_both (r w : Expr (T:=T)) rqs wqs :
  quorums r = Ok rqs → quorums w = Ok wqs →
  (QuorumSystem_init (Some r) (Some w) = Ok (mkQuorumSystem r w)
   ↔ ∀ rq wq, rq ∈ rqs → wq ∈ wqs → rq ∩ wq ≠ ∅) ∧
  (QuorumSystem_init (Some r) (Some w) = Raise AssertionError
   ↔ ∃ rq wq, rq ∈ rqs ∧ wq ∈ wqs ∧ rq ∩ wq = ∅) ∧
  QuorumSystem_init (T:=T) None None = Raise ValueError.
Proof.
  intros Hr Hw. unfold QuorumSystem_init. rewrite Hr, Hw. simpl.
  set (check := λ p : gset T * gset T,
         bool_decide (Z.of_nat (size (p.1 ∩ p.2)) > 0)).
  assert (∀ rq wq, check (rq, wq) = true ↔ rq ∩ wq ≠ ∅) as Hcheck.
  { intros rq wq. unfold check. simpl. rewrite bool_decide_eq_true.
    pose proof (size_non_empty_iff (rq ∩ wq)) as Hs.
    unfold_leibniz. rewrite <-Hs. lia. }
  destruct (forallb check _) eqn:Hall.
  - rewrite forallb_Forall, Forall_forall in Hall.
    repeat split; try done.
    + intros _ rq wq Hrq Hwq. apply Hcheck, Hall. by apply elem_of_pairs.
    + intros (rq & wq & Hrq & Hwq & Hempty).
      exfalso. revert Hempty. apply Hcheck, Hall. by apply elem_of_pairs.
  - repeat split; try done.
    + intros Hmeet. exfalso. apply not_true_iff_false in Hall. apply Hall.
      apply forallb_Forall, Forall_forall. intros [rq wq] Hp.
      apply elem_of_pairs in Hp as [? ?]. apply Hcheck. by apply Hmeet.
    + intros _. apply not_true_iff_false in Hall.
      rewrite forallb_Forall in Hall.
      apply not_Forall_Exists in Hall; [|intros ?; apply _].
      apply Exists_exists in Hall as ([rq wq] & Hp & Hno).
      apply elem_of_pairs in Hp as [? ?].
      exists rq, wq. repeat split; try done.
      destruct (decide (rq ∩ wq = ∅)) as [|Hne]; [done|].
      by apply Hcheck in Hne.
Qed.

End MoreExpressions.

(** ** Canonical distributions *)

Lemma Qeq_bool_sym' (a b : Q) : Qeq_bool a b = Qeq_bool b a.
Proof.
  destruct (Qeq_bool a b) eqn:E1, (Qeq_bool b a) eqn:E2; try done.
  - apply Qeq_bool_iff, Qeq_sym, Qeq_bool_iff in E1. congruence.
  - apply Qeq_bool_iff, Qeq_sym, Qeq_bool_iff in E2. congruence.
Qed.

Lemma fdict_has_app k (d1 d2 : fdict) :
  fdict_has k (d1 ++ d2) = fdict_has k d1 || fdict_has k d2.
Proof. unfold fdict_has. apply existsb_app. Qed.

Lemma fdict_set_new k v (d : fdict) :
  fdict_has k d = false → fdict_set k v d = d ++ [(k, v)].
Proof.
  induction d as [|[k' v'] d IH]; simpl; [done|].
  rewrite orb_false_iff. intros [-> Hd]. by rewrite IH.
Qed.




(** A list with distinct keys is the dictionary it builds. *)
Lemma fdict_of_list_id (l : list (Q * Q)) :
  distinct_keys l = true → fdict_of_list l = l.
Proof.
  unfold fdict_of_list.
  assert (∀ acc,
    distinct_keys l = true →
    Forall (λ p, fdict_has p.1 acc = false) l →
    foldl (λ d p, fdict_set p.1 p.2 d) acc l = acc ++ l) as Hacc.
  { induction l as [|[k v] l IH]; intros acc Hd Hacc; simpl.
    - by rewrite app_nil_r.
    - simpl in Hd. apply andb_true_iff in Hd as [Hk%negb_true_iff Hd].
      inversion Hacc as [|? ? Hkacc Hlacc]; subst. simpl in Hkacc.
      rewrite fdict_set_new by done. rewrite IH; [by rewrite <-app_assoc|done|].
      apply Forall_forall. intros [k' v'] Hin. simpl.
      rewrite Forall_forall in Hlacc. rewrite fdict_has_app.
      pose proof (Hlacc _ Hin) as Hx. simpl in Hx. rewrite Hx. simpl.
      rewrite orb_false_r.
      destruct (Qeq_bool k k') eqn:E; [|done].
      exfalso. unfold fdict_has in Hk.
      assert (existsb (λ p, Qeq_bool p.1 k) l = true); [|congruence].
      apply existsb_exists. exists (k', v').
      split; [by apply list_elem_of_In|]. simpl.
      by rewrite Qeq_bool_sym'. }
  intros Hd. apply (Hacc [] Hd). by apply Forall_forall.
Qed.


Lemma distinct_keys_fmap (t : Q) (d : fdict) :
  distinct_keys ((λ p, (p.1, p.2 / t)%Q) <$> d) = distinct_keys d.
Proof.
  unfold fdict in *.
  induction d as [|p d IH]; csimpl; [done|]. rewrite IH. f_equal. f_equal.
  unfold fdict_has. clear IH. induction d as [|q d IH]; csimpl; [done|].
  by rewrite IH.
Qed.

Lemma foldl_Qplus_Qeq (b c : Q) (l : list Q) :
  (b == c)%Q → (foldl Qplus b l == foldl Qplus c l)%Q.
Proof.
  revert b c. induction l as [|x l IH]; intros b c Hbc; simpl; [done|].
  apply IH. by rewrite Hbc.
Qed.

Lemma foldl_Qplus_shift (b c : Q) (l : list Q) :
  (foldl Qplus (b + c) l == c + foldl Qplus b l)%Q.
Proof.
  revert b. induction l as [|x l IH]; intros b; simpl; [ring|].
  rewrite <-IH. apply foldl_Qplus_Qeq. ring.
Qed.

Lemma Qsum_cons (a : Q) (l : list Q) : (Qsum (a :: l) == a + Qsum l)%Q.
Proof. unfold Qsum. simpl. apply foldl_Qplus_shift. Qed.

Lemma Qsum_nil : Qsum [] = 0%Q.
Proof. done. Qed.


Lemma Qsum_le (l l' : list Q) : Forall2 Qle l l' → (Qsum l <= Qsum l')%Q.
Proof.
  induction 1 as [|a b l l' Hab _ IH]; [done|].
  rewrite !Qsum_cons. by apply Qplus_le_compat.
Qed.











(** ** The tables and the loads of a strategy *)

Lemma py_max_upper (l : list Q) (m : Q) :
  py_max l = Ok m → ∀ v, v ∈ l → (v <= m)%Q.
Proof.
  destruct l as [|a l]; [done|]. simpl. intros [= <-].
  assert (∀ a, (a <= foldl (λ m b, if Qltb m b then b else m) a l)%Q
               ∧ ∀ v, v ∈ l →
                   (v <= foldl (λ m b, if Qltb m b then b else m) a l)%Q)
    as Hf.
  { induction l as [|b l IH]; intros a0; simpl.
    - split; [apply Qle_refl|]. by intros v ?%elem_of_nil.
    - destruct (IH (if Qltb a0 b then b else a0)) as [H1 H2].
      assert (a0 <= (if Qltb a0 b then b else a0)
              ∧ b <= (if Qltb a0 b then b else a0))%Q as [Ha Hb].
      { destruct (Qltb a0 b) eqn:E.
        - apply Qltb_lt in E. split; [by apply Qlt_le_weak|apply Qle_refl].
        - split; [apply Qle_refl|]. apply Qnot_lt_le. rewrite <-Qltb_lt.
          congruence. }
      split; [by eapply Qle_trans|].
      intros v [->|Hv]%elem_of_cons; [by eapply Qle_trans|by apply H2]. }
  destruct (Hf a) as [H1 H2].
  intros v [->|Hv]%elem_of_cons; [done|by apply H2].
Qed.

Lemma Forall2_elem_of_l {A B} (R : A → B → Prop) l k a :
  Forall2 R l k → a ∈ l → ∃ b, b ∈ k ∧ R a b.
Proof.
  induction 1 as [|x y l k Hxy _ IH]; [by intros ?%elem_of_nil|].
  intros [->|Ha]%elem_of_cons.
  - exists y. split; [by left|done].
  - destruct (IH Ha) as (b & ? & ?). exists b. split; [by right|done].
Qed.

Section MoreStrategies.
Context {T : Type} `{Countable T}.
Implicit Types (nodes : gset (Node (T:=T))) (n : Node (T:=T)).
Implicit Types (s : Strategy (T:=T)) (fr : Q) (x : T).

Lemma add_weight_lookup (w : Q) (l : list T) (m : gmap T Q) x :
  NoDup l →
  foldl (λ m y, <[y := (default 0 (m !! y) + w)%Q]> m) m l !! x
  = if decide (x ∈ l) then Some (default 0 (m !! x) + w)%Q else m !! x.
Proof.
  intros Hl. revert m.
  induction Hl as [|y l Hy _ IH]; intros m; simpl; [done|].
  rewrite IH. destruct (decide (x = y)) as [->|Hne].
  - rewrite decide_False by done. rewrite decide_True by (by left).
    by rewrite lookup_insert_eq.
  - rewrite lookup_insert_ne by done.
    destruct (decide (x ∈ l)).
    + by rewrite decide_True by (by right).
    + rewrite decide_False; [done|]. by intros [?|?]%elem_of_cons.
Qed.

Lemma unweighted_load_acc (l : list (gset T * Q)) (m : gmap T Q) x :
  foldl (λ m p, foldl (λ m y, <[y := (default 0 (m !! y) + p.2)%Q]> m) m
                  (elements p.1)) m l !! x
  = match (filter (λ p, x ∈ p.1) l).*2 with
    | [] => m !! x
    | ws => Some (foldl Qplus (default 0%Q (m !! x)) ws)
    end.
Proof.
  revert m. induction l as [|[q w] l IH]; intros m; [done|].
  cbn [foldl]. rewrite IH, filter_cons. cbn [fst snd].
  rewrite add_weight_lookup by apply NoDup_elements.
  destruct (decide (x ∈ q)) as [Hx|Hx].
  - rewrite decide_True by (by apply elem_of_elements). csimpl.
    by destruct ((filter (λ p, x ∈ p.1) l).*2).
  - by rewrite decide_False by (by rewrite elem_of_elements).
Qed.

(** X18. The table that [Strategy.__init__] fills holds, under a key [x],
    the sum of the weights of the quorums that hold [x], taken in order
    over the quorums zipped with the weights; a key in no quorum is not in
    the table. *)
Theorem unweighted_load_lookup (qs : list (gset T)) (weights : list Q) x :
  unweighted_load qs weights !! x
  = match covering_weights x qs weights with
    | [] => None
    | ws => Some (Qsum ws)
    end.
Proof.
  unfold unweighted_load, covering_weights. rewrite unweighted_load_acc.
  by rewrite lookup_empty.
Qed.

Lemma capacity_table_None (c : Node → Q) nodes x :
  x ∉ identities nodes → capacity_table c nodes !! x = None.
Proof.
  unfold capacity_table, identities. intros Hx.
  assert (∀ n, n ∈ elements nodes → node_x n ≠ x) as Hl.
  { intros n Hn%elem_of_elements Heq. apply Hx. set_solver. }
  revert Hl. generalize (elements nodes) as l.
  induction l as [|a l IH] using rev_ind; intros Hl; [done|].
  rewrite foldl_app. simpl. rewrite lookup_insert_ne.
  - apply IH. intros n Hn. apply Hl. set_solver.
  - apply Hl. set_solver.
Qed.

(** X19. The capacity tables that the strategies build: under the identity
    of every node the table holds the capacity of a node with that identity
    -- of the node itself when no other node carries its identity -- and it
    holds nothing under any other key. *)
Theorem capacity_table_spec (c : Node → Q) nodes :
  (∀ n, n ∈ nodes →
     ∃ n', n' ∈ nodes ∧ node_x n' = node_x n
           ∧ capacity_table c nodes !! node_x n = Some (c n')) ∧
  (∀ n, n ∈ nodes →
     (∀ n', n' ∈ nodes → node_x n' = node_x n → n' = n) →
     capacity_table c nodes !! node_x n = Some (c n)) ∧
  (∀ x, x ∉ identities nodes → capacity_table c nodes !! x = None).
Proof.
  split; [|split].
  - intros n Hn. by apply capacity_table_lookup.
  - intros n Hn Huniq.
    destruct (capacity_table_lookup c nodes n Hn) as (n' & Hn' & Hx & Hl).
    assert (n' = n) as -> by (by apply Huniq). done.
  - apply capacity_table_None.
Qed.

Lemma node_load_le_load_aux s fr (m : Q) n :
  _load s fr = Ok m → n ∈ st_nodes s →
  ∃ v, _node_load s (node_x n) fr = Ok v ∧ (v <= m)%Q.
Proof.
  unfold _load. intros (ls & Hls & Hmax)%bind_Ok_inv Hn.
  apply mapM_Ok_Forall2 in Hls.
  destruct (Forall2_elem_of_l _ _ _ n Hls) as (v & Hv & Hnv).
  { by apply elem_of_elements. }
  exists v. split; [done|]. by apply (py_max_upper ls).
Qed.

(** X20. Whenever [Strategy._load(fr)] returns, the load of every node of
    the strategy at [fr] is computed without error and is at most the
    returned value. *)
Theorem node_load_le_load s fr (m : Q) n :
  _load s fr = Ok m → n ∈ st_nodes s →
  ∃ v, _node_load s (node_x n) fr = Ok v ∧ (v <= m)%Q.
Proof. apply node_load_le_load_aux. Qed.

(** X21. For weights that are not negative, whenever [Strategy.load]
    returns, [Strategy.node_load] of every node of the strategy returns as
    well, and returns at most as much. *)
Theorem node_load_le_Strategy_load s (d : fdict) (b : Q) n :
  Forall (λ p, (0 <= p.2)%Q) d →
  Strategy_load s d = Ok b → n ∈ st_nodes s →
  ∃ a, Strategy_node_load s n d = Ok a ∧ (a <= b)%Q.
Proof.
  unfold Strategy_load, Strategy_node_load.
  intros Hd (ts & Hts & [= <-])%bind_Ok_inv Hn.
  assert (∃ ts', mapM (λ p : Q * Q,
                         l ← _node_load s (node_x n) p.1; Ok (p.2 * l)%Q) d
                 = Ok ts' ∧ Forall2 Qle ts' ts) as (ts' & Hts' & Hle).
  { revert ts Hts. induction Hd as [|p d Hp _ IH]; intros ts Hts.
    - injection Hts as <-. exists []. split; [done|constructor].
    - rewrite mapM_cons in Hts.
      apply bind_Ok_inv in Hts as (t & Ht & Hts).
      apply bind_Ok_inv in Hts as (ts0 & Hts0 & [= <-]).
      apply bind_Ok_inv in Ht as (m & Hm & [= <-]).
      destruct (node_load_le_load_aux s p.1 m n Hm Hn) as (v & Hv & Hvm).
      destruct (IH ts0 Hts0) as (ts' & Hts' & Hle).
      exists ((p.2 * v)%Q :: ts'). split.
      + by rewrite mapM_cons, Hv, Hts'.
      + constructor; [|done]. rewrite !(Qmult_comm p.2).
        by apply Qmult_le_compat_r. }
  exists (Qsum ts'). rewrite Hts'. split; [done|]. by apply Qsum_le.
Qed.

Lemma mapM_Raise {A B} (f : A → result B) (l : list A) (E : exn) :
  Forall (λ a, is_Ok (f a) ∨ f a = Raise E) l →
  Exists (λ a, f a = Raise E) l →
  mapM f l = Raise E.
Proof.
  induction 1 as [|a l Ha _ IH]; [by inversion 1|].
  intros Hex. rewrite mapM_cons.
  destruct Ha as [[b Hb]|Ha]; [|by rewrite Ha].
  rewrite Hb. simpl.
  apply Exists_cons in Hex as [Hex|Hex]; [congruence|].
  by rewrite (IH Hex).
Qed.

(** A node load of a strategy that [Strategy.__init__] builds is computed,
    or a capacity is zero: no key is ever missing. *)
Lemma node_load_Ok_or_zero nodes reads rws writes wws n fr :
  n ∈ nodes →
  is_Ok (_node_load (Strategy_init nodes reads rws writes wws)
           (node_x n) fr)
  ∨ _node_load (Strategy_init nodes reads rws writes wws) (node_x n) fr
    = Raise ZeroDivisionError.
Proof.
  intros Hn.
  destruct (capacity_table_lookup read_capacity nodes n Hn)
    as (nr & _ & _ & Hr).
  destruct (capacity_table_lookup write_capacity nodes n Hn)
    as (nw & _ & _ & Hw).
  unfold _node_load, dict_get, fdiv. simpl. rewrite Hr, Hw. simpl.
  destruct (Qeq_bool (read_capacity nr) 0); simpl; [by right|].
  destruct (Qeq_bool (write_capacity nw) 0); simpl; [by right|].
  left. by eexists.
Qed.

Lemma node_load_zero_capacity nodes reads rws writes wws n fr :
  unique_identities nodes → n ∈ nodes →
  (read_capacity n == 0 ∨ write_capacity n == 0)%Q →
  _node_load (Strategy_init nodes reads rws writes wws) (node_x n) fr
  = Raise ZeroDivisionError.
Proof.
  intros Huniq Hn Hzero.
  assert (∀ c, capacity_table c nodes !! node_x n = Some (c n)) as Hc.
  { intros c.
    destruct (capacity_table_lookup c nodes n Hn) as (n' & Hn' & Hx & Hl).
    assert (n' = n) as -> by (by apply Huniq). done. }
  unfold _node_load, dict_get, fdiv. simpl. rewrite !Hc. simpl.
  destruct (Qeq_bool (read_capacity n) 0) eqn:E1; simpl; [done|].
  destruct (Qeq_bool (write_capacity n) 0) eqn:E2; simpl; [done|].
  destruct Hzero as [Hz|Hz]; apply Qeq_bool_iff in Hz; congruence.
Qed.

(** X22. A zero capacity is not an infinite load but an error:
    [Strategy.load] raises [ZeroDivisionError] on every non-empty
    distribution as soon as one node has a zero read or write capacity,
    also a node that is in no quorum. *)
Theorem Strategy_load_zero_capacity nodes reads rws writes wws n (d : fdict) :
  unique_identities nodes → n ∈ nodes →
  (read_capacity n == 0 ∨ write_capacity n == 0)%Q → d ≠ [] →
  Strategy_load (Strategy_init nodes reads rws writes wws) d
  = Raise ZeroDivisionError.
Proof.
  intros Huniq Hn Hzero Hd. destruct d as [|p d]; [done|].
  unfold Strategy_load. rewrite mapM_cons.
  assert (_load (Strategy_init nodes reads rws writes wws) p.1
          = Raise ZeroDivisionError) as ->; [|done].
  unfold _load. rewrite (mapM_Raise _ _ ZeroDivisionError); [done| |].
  - apply Forall_forall. intros n' Hn'%elem_of_elements.
    by apply node_load_Ok_or_zero.
  - apply Exists_exists. exists n. split; [by apply elem_of_elements|].
    by apply node_load_zero_capacity.
Qed.




(** X4. In a [QuorumSystem] built from its reads alone, a set is a write
    quorum exactly when it meets every read quorum; built from its writes
    alone, a set is a read quorum exactly when it meets every write
    quorum. *)
Theorem other_side_quorum_iff_meets_all (e : Expr (T:=T)) (xs : gset T) :
  wf e = true →
  (∃ sys rqs,
     QuorumSystem_init (Some e) None = Ok sys ∧ read_quorums sys = Ok rqs ∧
     (is_write_quorum sys xs = true ↔ ∀ q, q ∈ rqs → q ∩ xs ≠ ∅)) ∧
  (∃ sys wqs,
     QuorumSystem_init None (Some e) = Ok sys ∧ write_quorums sys = Ok wqs ∧
     (is_read_quorum sys xs = true ↔ ∀ q, q ∈ wqs → q ∩ xs ≠ ∅)).
Proof.
  intros Hwf.
  destruct (dual_quorum_iff_hits_all e xs Hwf) as (d & qs & Hd & Hqs & Hiff).
  split.
  - exists (mkQuorumSystem e d), qs. simpl. by rewrite Hd.
  - exists (mkQuorumSystem d e), qs. simpl. by rewrite Hd.
Qed.

End MoreStrategies.

Section LoadsOfBuiltStrategies.
Context {T : Type} `{Countable T}.

(** X25. For a non-empty set of nodes with non-zero capacities,
    [Strategy.load] never raises and returns the expected worst-case load:
    the sum over the read fractions [f] of the distribution of [d f] times
    the largest node load at [f]. *)
Theorem Strategy_load_is_expected_worst_case
    (nodes : gset (Node (T:=T))) reads rws writes wws (d : fdict) :
  nodes ≠ ∅ → capacities_nonzero nodes →
  ∃ v, Strategy_load (Strategy_init nodes reads rws writes wws) d = Ok v ∧
       (v == expected_worst_case_load
               (Strategy_init nodes reads rws writes wws) d)%Q.
Proof. apply Strategy_load_expected_worst_case. Qed.

(** X26. For a non-empty set of nodes with non-zero capacities,
    [ExplicitStrategy.load] never raises on a distribution that is
    canonicalized, and returns the largest node load at the mean read
    fraction of the distribution. *)
Theorem ExplicitStrategy_load_is_worst_case_at_mean
    (nodes : gset (Node (T:=T))) reads rws writes wws read_fraction d :
  nodes ≠ ∅ → capacities_nonzero nodes →
  _canonicalize_distribution read_fraction = Ok d →
  ∃ v, ExplicitStrategy_load
         (ExplicitStrategy_init nodes reads rws writes wws) read_fraction
       = Ok v ∧
       (v == worst_case_load_at_mean
               (Strategy_init nodes reads rws writes wws) d)%Q.
Proof. apply ExplicitStrategy_load_worst_case_at_mean. Qed.

End LoadsOfBuiltStrategies.

(** ** The further properties on concrete systems *)

Lemma leaves_majority_abc_within :
  ∀ n, n ∈ leaves majority_abc → node_x n ∈ ({[ "a"; "b"; "c" ]} : gset string).
Proof.
  intros n Hn. simpl in Hn.
  repeat (apply elem_of_cons in Hn as [->|Hn]); simpl; set_solver.
Defined.

Lemma is_quorum_mono_witness :
  ({[ "a"; "b" ]} : gset string) ⊆ {[ "a"; "b"; "c" ]} ∧
  is_quorum majority_abc {[ "a"; "b" ]} = true ∧
  is_quorum majority_abc {[ "a"; "b"; "c" ]} = true.
Proof.
  assert (({[ "a"; "b" ]} : gset string) ⊆ {[ "a"; "b"; "c" ]}) as Hsub
    by set_solver.
  assert (is_quorum majority_abc {[ "a"; "b" ]} = true) as Hq
    by (vm_compute; reflexivity).
  split; [exact Hsub|]. split; [exact Hq|].
  exact (is_quorum_mono majority_abc _ _ Hsub Hq).
Defined.

Lemma dual_is_boolean_dual_witness :
  wf majority_abc = true ∧
  (∀ n, n ∈ leaves majority_abc
        → node_x n ∈ ({[ "a"; "b"; "c" ]} : gset string)) ∧
  ∃ d, dual majority_abc = Ok d ∧
       is_quorum d {[ "a" ]}
       = negb (is_quorum majority_abc ({[ "a"; "b"; "c" ]} ∖ {[ "a" ]})).
Proof.
  split; [reflexivity|]. split; [exact leaves_majority_abc_within|].
  exact (dual_is_boolean_dual majority_abc _ {[ "a" ]} eq_refl
           leaves_majority_abc_within).
Defined.

Lemma dual_nodes_witness :
  wf majority_abc = true ∧
  ∃ d ns, dual majority_abc = Ok d ∧ wf d = true ∧
          nodes majority_abc = Ok ns ∧ nodes d = Ok ns.
Proof. split; [reflexivity|]. exact (dual_nodes majority_abc eq_refl). Defined.

Lemma other_side_quorum_iff_meets_all_witness :
  wf majority_abc = true ∧
  (∃ sys rqs,
     QuorumSystem_init (Some majority_abc) None = Ok sys ∧
     read_quorums sys = Ok rqs ∧
     (is_write_quorum sys {[ "a" ]} = true
      ↔ ∀ q, q ∈ rqs → q ∩ {[ "a" ]} ≠ ∅)) ∧
  (∃ sys wqs,
     QuorumSystem_init None (Some majority_abc) = Ok sys ∧
     write_quorums sys = Ok wqs ∧
     (is_read_quorum sys {[ "a" ]} = true
      ↔ ∀ q, q ∈ wqs → q ∩ {[ "a" ]} ≠ ∅)).
Proof.
  split; [reflexivity|].
  exact (other_side_quorum_iff_meets_all majority_abc {[ "a" ]} eq_refl).
Defined.

Lemma _and_is_quorum_witness :
  wf (Leaf node_a) = true ∧ wf majority_abc = true ∧
  ∃ e, _and (Leaf node_a) majority_abc = Ok e ∧ wf e = true ∧
       ∀ xs, is_quorum e xs
             = is_quorum (Leaf node_a) xs && is_quorum majority_abc xs.
Proof.
  split; [reflexivity|]. split; [reflexivity|].
  exact (_and_is_quorum (Leaf node_a) majority_abc eq_refl eq_refl).
Defined.

Lemma _or_is_quorum_witness :
  wf (Leaf node_a) = true ∧ wf majority_abc = true ∧
  ∃ e, _or (Leaf node_a) majority_abc = Ok e ∧ wf e = true ∧
       ∀ xs, is_quorum e xs
             = is_quorum (Leaf node_a) xs || is_quorum majority_abc xs.
Proof.
  split; [reflexivity|]. split; [reflexivity|].
  exact (_or_is_quorum (Leaf node_a) majority_abc eq_refl eq_refl).
Defined.

Lemma _and_assoc_witness :
  wf (Leaf node_a) = true ∧ wf (Leaf node_b) = true ∧
  wf (Leaf node_c) = true ∧
  (ab ← _and (Leaf node_a) (Leaf node_b); _and ab (Leaf node_c))
    = Ok (And (flat_and (Leaf node_a) ++ flat_and (Leaf node_b)
               ++ flat_and (Leaf node_c))) ∧
  (bc ← _and (Leaf node_b) (Leaf node_c); _and (Leaf node_a) bc)
    = Ok (And (flat_and (Leaf node_a) ++ flat_and (Leaf node_b)
               ++ flat_and (Leaf node_c))).
Proof.
  split; [reflexivity|]. split; [reflexivity|]. split; [reflexivity|].
  exact (_and_assoc (Leaf node_a) (Leaf node_b) (Leaf node_c)
           eq_refl eq_refl eq_refl).
Defined.

Lemma _or_assoc_witness :
  wf (Leaf node_a) = true ∧ wf (Leaf node_b) = true ∧
  wf (Leaf node_c) = true ∧
  (ab ← _or (Leaf node_a) (Leaf node_b); _or ab (Leaf node_c))
    = Ok (Or (flat_or (Leaf node_a) ++ flat_or (Leaf node_b)
              ++ flat_or (Leaf node_c))) ∧
  (bc ← _or (Leaf node_b) (Leaf node_c); _or (Leaf node_a) bc)
    = Ok (Or (flat_or (Leaf node_a) ++ flat_or (Leaf node_b)
              ++ flat_or (Leaf node_c))).
Proof.
  split; [reflexivity|]. split; [reflexivity|]. split; [reflexivity|].
  exact (_or_assoc (Leaf node_a) (Leaf node_b) (Leaf node_c)
           eq_refl eq_refl eq_refl).
Defined.

Lemma _or_quorums_witness :
  wf (Leaf node_a) = true ∧ wf majority_abc = true ∧
  ∃ e ql qr,
    _or (Leaf node_a) majority_abc = Ok e ∧
    quorums (Leaf node_a) = Ok ql ∧ quorums majority_abc = Ok qr ∧
    quorums e = Ok (ql ++ qr).
Proof.
  split; [reflexivity|]. split; [reflexivity|].
  exact (_or_quorums (Leaf node_a) majority_abc eq_refl eq_refl).
Defined.

Lemma _and_quorums_witness :
  wf (Leaf node_a) = true ∧ wf majority_abc = true ∧
  ∃ e ql qr qs,
    _and (Leaf node_a) majority_abc = Ok e ∧
    quorums (Leaf node_a) = Ok ql ∧ quorums majority_abc = Ok qr ∧
    quorums e = Ok qs ∧
    ∀ q, q ∈ qs ↔ ∃ q1 q2, q1 ∈ ql ∧ q2 ∈ qr ∧ q = q1 ∪ q2.
Proof.
  split; [reflexivity|]. split; [reflexivity|].
  exact (_and_quorums (Leaf node_a) majority_abc eq_refl eq_refl).
Defined.

Lemma two_of_three :
  1 ≤ 2 ≤ len [Leaf node_a; Leaf node_b; Leaf node_c].
Proof. unfold len. simpl. lia. Defined.

Lemma choose_is_quorum_witness :
  1 ≤ 2 ≤ len [Leaf node_a; Leaf node_b; Leaf node_c] ∧
  ∃ e, choose 2 [Leaf node_a; Leaf node_b; Leaf node_c] = Ok e ∧
       ∀ xs, is_quorum e xs = true
             ↔ 2 ≤ Z.of_nat
                     (quorum_count [Leaf node_a; Leaf node_b; Leaf node_c] xs).
Proof.
  split; [exact two_of_three|].
  exact (choose_is_quorum 2 [Leaf node_a; Leaf node_b; Leaf node_c]
           two_of_three).
Defined.

Lemma three_leaves_not_nil :
  [Leaf node_a; Leaf node_b; Leaf node_c] ≠ [].
Proof. discriminate. Defined.

Lemma majority_is_quorum_witness :
  [Leaf node_a; Leaf node_b; Leaf node_c] ≠ [] ∧
  majority (T:=string) [] = Raise ValueError ∧
  ∃ e, majority [Leaf node_a; Leaf node_b; Leaf node_c] = Ok e ∧
       ∀ xs, is_quorum e xs = true
             ↔ len [Leaf node_a; Leaf node_b; Leaf node_c]
               < 2 * Z.of_nat
                       (quorum_count
                          [Leaf node_a; Leaf node_b; Leaf node_c] xs).
Proof.
  split; [exact three_leaves_not_nil|].
  exact (majority_is_quorum [Leaf node_a; Leaf node_b; Leaf node_c]
           three_leaves_not_nil).
Defined.

Lemma three_nodes_not_nil : [node_a; node_b; node_c] ≠ [].
Proof. discriminate. Defined.

Lemma majority_quorums_intersect_witness :
  [node_a; node_b; node_c] ≠ [] ∧
  ∃ e, majority (Leaf <$> [node_a; node_b; node_c]) = Ok e ∧
       ∀ xs ys, is_quorum e xs = true → is_quorum e ys = true →
                xs ∩ ys ≠ ∅.
Proof.
  split; [exact three_nodes_not_nil|].
  exact (majority_quorums_intersect [node_a; node_b; node_c]
           three_nodes_not_nil).
Defined.

Lemma QuorumSystem_init_both_witness :
  quorums majority_abc = Ok majority_quorums ∧
  (QuorumSystem_init (Some majority_abc) (Some majority_abc)
   = Ok (mkQuorumSystem majority_abc majority_abc)
   ↔ ∀ rq wq, rq ∈ majority_quorums → wq ∈ majority_quorums
              → rq ∩ wq ≠ ∅) ∧
  (QuorumSystem_init (Some majority_abc) (Some majority_abc)
   = Raise AssertionError
   ↔ ∃ rq wq, rq ∈ majority_quorums ∧ wq ∈ majority_quorums
              ∧ rq ∩ wq = ∅) ∧
  QuorumSystem_init (T:=string) None None = Raise ValueError.
Proof.
  split; [reflexivity|].
  exact (QuorumSystem_init_both majority_abc majority_abc
           majority_quorums majority_quorums eq_refl eq_refl).
Defined.






Lemma split_strategy_load_half : _load split_strategy (1 # 2) = Ok (2 # 4)%Q.
Proof. vm_compute. reflexivity. Defined.

Lemma node_a_in_split_strategy : node_a ∈ st_nodes split_strategy.
Proof. simpl. set_solver. Defined.

Lemma node_load_le_load_witness :
  _load split_strategy (1 # 2) = Ok (2 # 4)%Q ∧
  node_a ∈ st_nodes split_strategy ∧
  ∃ v, _node_load split_strategy (node_x node_a) (1 # 2) = Ok v
       ∧ (v <= 2 # 4)%Q.
Proof.
  split; [exact split_strategy_load_half|].
  split; [exact node_a_in_split_strategy|].
  exact (node_load_le_load split_strategy (1 # 2) (2 # 4) node_a
           split_strategy_load_half node_a_in_split_strategy).
Defined.

Lemma all_or_nothing_nonnegative :
  Forall (λ p, (0 <= p.2)%Q) all_or_nothing.
Proof. repeat constructor; simpl; unfold Qle; simpl; lia. Defined.

Lemma split_strategy_load :
  Strategy_load split_strategy all_or_nothing = Ok (4 # 4)%Q.
Proof. vm_compute. reflexivity. Defined.

Lemma node_load_le_Strategy_load_witness :
  Forall (λ p, (0 <= p.2)%Q) all_or_nothing ∧
  Strategy_load split_strategy all_or_nothing = Ok (4 # 4)%Q ∧
  node_a ∈ st_nodes split_strategy ∧
  ∃ a, Strategy_node_load split_strategy node_a all_or_nothing = Ok a
       ∧ (a <= 4 # 4)%Q.
Proof.
  split; [exact all_or_nothing_nonnegative|].
  split; [exact split_strategy_load|].
  split; [exact node_a_in_split_strategy|].
  exact (node_load_le_Strategy_load split_strategy all_or_nothing (4 # 4)
           node_a all_or_nothing_nonnegative split_strategy_load
           node_a_in_split_strategy).
Defined.

Lemma node_z_alone : unique_identities ({[ node_z ]} : gset Node).
Proof. intros n n' Hn Hn' _. set_solver. Defined.

Lemma node_z_in : node_z ∈ ({[ node_z ]} : gset Node).
Proof. set_solver. Defined.

Lemma node_z_zero :
  (read_capacity node_z == 0 ∨ write_capacity node_z == 0)%Q.
Proof. left. reflexivity. Defined.

Lemma all_or_nothing_not_nil : all_or_nothing ≠ [].
Proof. discriminate. Defined.

Lemma Strategy_load_zero_capacity_witness :
  unique_identities ({[ node_z ]} : gset Node) ∧
  node_z ∈ ({[ node_z ]} : gset Node) ∧
  (read_capacity node_z == 0 ∨ write_capacity node_z == 0)%Q ∧
  all_or_nothing ≠ [] ∧
  Strategy_load (Strategy_init {[ node_z ]} [] [] [] []) all_or_nothing
  = Raise ZeroDivisionError.
Proof.
  split; [exact node_z_alone|]. split; [exact node_z_in|].
  split; [exact node_z_zero|]. split; [exact all_or_nothing_not_nil|].
  exact (Strategy_load_zero_capacity {[ node_z ]} [] [] [] [] node_z
           all_or_nothing node_z_alone node_z_in node_z_zero
           all_or_nothing_not_nil).
Defined.






Lemma ab_nodes_not_empty : ({[ node_a; node_b ]} : gset Node) ≠ ∅.
Proof. set_solver. Defined.

Lemma ab_capacities_nonzero :
  capacities_nonzero ({[ node_a; node_b ]} : gset Node).
Proof.
  intros n Hn. apply elem_of_union in Hn as [Hn|Hn];
    apply elem_of_singleton in Hn; subst; split; discriminate.
Defined.

Lemma Strategy_load_is_expected_worst_case_witness :
  ({[ node_a; node_b ]} : gset Node) ≠ ∅ ∧
  capacities_nonzero ({[ node_a; node_b ]} : gset Node) ∧
  ∃ v, Strategy_load split_strategy all_or_nothing = Ok v ∧
       (v == expected_worst_case_load split_strategy all_or_nothing)%Q.
Proof.
  split; [exact ab_nodes_not_empty|]. split; [exact ab_capacities_nonzero|].
  exact (Strategy_load_is_expected_worst_case {[ node_a; node_b ]}
           [ {[ "a" ]} ] [1%Q] [ {[ "b" ]} ] [1%Q] all_or_nothing
           ab_nodes_not_empty ab_capacities_nonzero).
Defined.

Lemma all_or_nothing_canonicalized :
  _canonicalize_distribution (DDict all_or_nothing)
  = Ok [(0, 4 # 8); (1, 4 # 8)]%Q.
Proof. reflexivity. Defined.

Lemma ExplicitStrategy_load_is_worst_case_at_mean_witness :
  ({[ node_a; node_b ]} : gset Node) ≠ ∅ ∧
  capacities_nonzero ({[ node_a; node_b ]} : gset Node) ∧
  _canonicalize_distribution (DDict all_or_nothing)
  = Ok [(0, 4 # 8); (1, 4 # 8)]%Q ∧
  ∃ v, ExplicitStrategy_load split_explicit_strategy (DDict all_or_nothing)
       = Ok v ∧
       (v == worst_case_load_at_mean split_strategy
               [(0, 4 # 8); (1, 4 # 8)])%Q.
Proof.
  split; [exact ab_nodes_not_empty|]. split; [exact ab_capacities_nonzero|].
  split; [exact all_or_nothing_canonicalized|].
  exact (ExplicitStrategy_load_is_worst_case_at_mean {[ node_a; node_b ]}
           [ {[ "a" ]} ] [1%Q] [ {[ "b" ]} ] [1%Q] (DDict all_or_nothing)
           [(0, 4 # 8); (1, 4 # 8)]%Q
           ab_nodes_not_empty ab_capacities_nonzero
           all_or_nothing_canonicalized).
Defined.

(** ** Missing keys and repeated canonicalization *)

Section UnknownNodes.
Context {T : Type} `{Countable T}.

(** X27. [Strategy.node_load] of a node whose identity no node of the
    strategy carries raises [KeyError] on every non-empty distribution: the
    capacity tables have no entry for it. *)
Theorem node_load_unknown_node (nodes : gset (Node (T:=T)))
    reads rws writes wws (node : Node (T:=T)) (d : fdict) :
  node_x node ∉ identities nodes → d ≠ [] →
  Strategy_node_load (Strategy_init nodes reads rws writes wws) node d
  = Raise KeyError.
Proof.
  intros Hx Hd. destruct d as [|p d]; [done|].
  unfold Strategy_node_load. rewrite mapM_cons.
  unfold _node_load, dict_get. simpl.
  by rewrite (capacity_table_None read_capacity nodes _ Hx).
Qed.

End UnknownNodes.

Lemma filter_all {A} (P : A → Prop) `{∀ a, Decision (P a)} (l : list A) :
  Forall P l → filter P l = l.
Proof.
  induction 1 as [|a l Ha _ IH]; [done|].
  by rewrite filter_cons, decide_True, IH.
Qed.

(** X28. Canonicalizing a canonical dictionary changes nothing: it
    succeeds and returns the same keys in the same order with equal
    weights. *)
Theorem canonicalize_idempotent (d : fdict) :
  probability_distribution d →
  ∃ d', _canonicalize_distribution (DDict d) = Ok d' ∧
        Forall2 (λ p q, q.1 = p.1 ∧ (q.2 == p.2)%Q) d d'.
Proof.
  intros (Hne & Hdist & Hpos & Hsum). simpl. unfold canonicalize_dict.
  unfold fdict in *.
  rewrite bool_decide_eq_false_2 by (by rewrite len_0).
  assert (existsb (λ weight, Qltb weight 0) d.*2 = false) as ->.
  { apply not_true_iff_false. intros Hex.
    apply existsb_exists in Hex as (w & Hw & Hlt%Qltb_lt).
    apply list_elem_of_In, list_elem_of_fmap in Hw as (p & -> & Hp).
    rewrite Forall_forall in Hpos.
    apply (Qlt_irrefl 0), (Qlt_trans _ p.2); [by apply Hpos|done]. }
  assert (Qeq_bool (Qsum d.*2) 0 = false) as ->.
  { apply not_true_iff_false. intros Hz%Qeq_bool_iff.
    rewrite Hsum in Hz. by vm_compute in Hz. }
  eexists. split; [reflexivity|].
  rewrite filter_all.
  2:{ eapply Forall_impl; [exact Hpos|]. intros p Hp. simpl.
      by apply Qltb_lt. }
  rewrite fdict_of_list_id by (by rewrite distinct_keys_fmap).
  apply Forall2_fmap_r, Forall2_diag, Forall_forall. intros p _. simpl.
  split; [done|]. rewrite Hsum. by field.
Qed.

Lemma node_load_unknown_node_witness :
  (node_x node_z ∉ identities ({[ node_a; node_b ]} : gset Node)) ∧
  all_or_nothing ≠ [] ∧
  Strategy_node_load split_strategy node_z all_or_nothing = Raise KeyError.
Proof.
  assert (node_x node_z ∉ identities ({[ node_a; node_b ]} : gset Node))
    as Hz.
  { unfold identities. intros Hin.
    apply elem_of_map in Hin as (n & Hx & Hn).
    apply elem_of_union in Hn as [Hn|Hn];
      apply elem_of_singleton in Hn; subst; discriminate. }
  split; [exact Hz|]. split; [exact all_or_nothing_not_nil|].
  exact (node_load_unknown_node {[ node_a; node_b ]}
           [ {[ "a" ]} ] [1%Q] [ {[ "b" ]} ] [1%Q] node_z all_or_nothing
           Hz all_or_nothing_not_nil).
Defined.

Lemma mixed_workload_canonical_probability :
  probability_distribution mixed_workload_canonical.
Proof.
  split; [discriminate|]. split; [reflexivity|]. split.
  - repeat constructor; simpl; unfold Qlt; simpl; lia.
  - vm_compute. reflexivity.
Defined.

Lemma canonicalize_idempotent_witness :
  probability_distribution mixed_workload_canonical ∧
  ∃ d', _canonicalize_distribution (DDict mixed_workload_canonical) = Ok d' ∧
        Forall2 (λ p q, q.1 = p.1 ∧ (q.2 == p.2)%Q)
          mixed_workload_canonical d'.
Proof.
  split; [exact mixed_workload_canonical_probability|].
  exact (canonicalize_idempotent mixed_workload_canonical
           mixed_workload_canonical_probability).
Defined.
